(** * linear-utils: branch-name parsing and issue automation

    A shallow embedding of [src/linear-utils.ts].  The script receives the
    name of a freshly created git branch, reads the issue it names from the
    Linear tracker, moves that issue to its team's draft workflow state and
    assigns it to the user named in the branch.

    Modelling conventions.
    - JavaScript strings are [string]s, read as UTF-8: '/' and '-' are
      single bytes that occur in no other character, so [split] on them is
      the same as on UTF-16 code units.  [toUpperCase] is a parameter of the
      script (class [UpperCase]); only the worked examples fix it, to the
      ASCII upper-casing.
    - The Linear SDK is an external service.  It is modelled as a store
      ([World]) holding the tracker's entities together with a trace of the
      requests the script makes ([Call]); an [async] function becomes a
      computation in the state-and-exception monad [M], and [await] is
      sequencing.  Transport failures are not modelled, except that the
      organization query fails when the tracker serves none; the client
      cannot be constructed without an API key.
    - A thrown [Error] is a value of [Exn] carrying the message the source
      gives it.
    - [console.log] output is not part of the model, nor is the top of the
      script, which assembles [argv] and hands it to yargs: [main] starts
      from the parsed [Arguments]. *)

From stdpp Require Import base strings list gmap sorting.
From Stdlib Require Import Ascii String.

Local Open Scope string_scope.
Local Open Scope list_scope.
Local Open Scope nat_scope.

(** ** Strings *)

Module JsString.

(** [s.split(sep)] for a one-character separator: the pieces between the
    occurrences of [sep], always at least one piece. *)
Fixpoint split (sep : ascii) (s : string) : list string :=
  match s with
  | EmptyString => [EmptyString]
  | String c rest =>
      if decide (c = sep) then EmptyString :: split sep rest
      else match split sep rest with
           | [] => [String c EmptyString]
           | piece :: pieces => String c piece :: pieces
           end
  end.

Definition upper_char (c : ascii) : ascii :=
  let n := nat_of_ascii c in
  if (97 <=? n) && (n <=? 122) then ascii_of_nat (n - 32) else c.

(** [s.toUpperCase()] on ASCII text: the letters a-z are mapped, every
    other character stays. *)
Fixpoint toUpperCaseAscii (s : string) : string :=
  match s with
  | EmptyString => EmptyString
  | String c rest => String (upper_char c) (toUpperCaseAscii rest)
  end.

(** Number of occurrences of a character. *)
Fixpoint count_char (c : ascii) (s : string) : nat :=
  match s with
  | EmptyString => 0
  | String d rest => (if decide (d = c) then 1 else 0) + count_char c rest
  end.

(** The piece up to the first occurrence of [c] (all of [s] when there is
    none) and the remainder after it. *)
Fixpoint before_first (c : ascii) (s : string) : string :=
  match s with
  | EmptyString => EmptyString
  | String d rest =>
      if decide (d = c) then EmptyString else String d (before_first c rest)
  end.

Fixpoint after_first (c : ascii) (s : string) : string :=
  match s with
  | EmptyString => EmptyString
  | String d rest => if decide (d = c) then rest else after_first c rest
  end.

(** JavaScript truthiness of a [string | null] value. *)
Definition truthy (v : option string) : bool :=
  match v with
  | None => false
  | Some EmptyString => false
  | Some (String _ _) => true
  end.

End JsString.
Import JsString.

(** [String.prototype.toUpperCase] belongs to the JavaScript engine, not to
    the script, and maps far more than ASCII (it turns "é" into "É", "ß" into
    "SS").  The script is therefore modelled over any upper-casing function;
    what is proved of it holds whatever that function is.  The few
    properties that do depend on it name what they need as
    [UpperCaseLaws]: upper-casing twice is upper-casing once, and it
    neither makes nor removes a '-' or a '/'. *)
Class UpperCase := toUpperCase : string → string.

Class UpperCaseLaws `{UpperCase} : Prop := {
  toUpperCase_idem : ∀ s, toUpperCase (toUpperCase s) = toUpperCase s;
  toUpperCase_hyphens : ∀ s, count_char "-" (toUpperCase s) = count_char "-" s;
  toUpperCase_slashes : ∀ s, count_char "/" (toUpperCase s) = count_char "/" s
}.

(** The instance the worked examples compute with. *)
Global Instance asciiUpperCase : UpperCase := toUpperCaseAscii.

(** ** Exceptions *)

Inductive Exn : Type :=
  | Error (message : string)
  | TypeError (message : string)
  | ApiError (message : string).

(** The error kinds of the script, by the message each is thrown with. *)
Definition IncompatibleBranchFormat : Exn := Error "IncompatibleBranchFormat".
Definition MissingTeam : Exn := Error "Issue does not belong to a Team".
Definition MissingDraftStateOrIssueState : Exn :=
  Error "Team does not have draft state OR issue does not have state".
Definition AssigneeResolutionFailed : Exn :=
  Error "Unable to get User information to assign".

(** What [branch.split] throws when [branch] is [undefined]. *)
Definition splitOfUndefined : Exn :=
  TypeError "Cannot read properties of undefined (reading 'split')".

(** What [new LinearClient(params)] throws when [params] carries neither an
    API key nor an access token. *)
Definition missingApiKey : Exn :=
  Error "No accessToken or apiKey provided to the LinearClient - create one here: https://linear.app/settings/api".

(** What the tracker answers to a client it does not know. *)
Definition organizationError : Exn := ApiError "Authentication required".

Inductive Result (A : Type) : Type :=
  | Ok (a : A)
  | Throw (e : Exn).
Arguments Ok {A} a.
Arguments Throw {A} e.

(** ** Branch-name parser *)

Record Organization := { gitBranchFormat : string }.

Record BranchSpec := {
  assignee : option string;
  issueIdentifier : string
}.

Definition supportedFormat : string := "{username}/{issueIdentifier}-{issueTitle}".

(** The source declares [assignee] and [issueIdentifier] as nullable locals
    and re-checks [issueIdentifier === null] before returning; both are
    assigned on the only path that reaches the [return], so the check never
    fires and the returned [assignee] is [slashParts[0]]. *)
Definition collectAssigneeIssueIdentifierFromBranchName `{UpperCase}
    (org : Organization) (branch : string) : Result BranchSpec :=
  if decide (gitBranchFormat org = supportedFormat) then
    let slashParts := split "/" branch in
    if decide (List.length slashParts ≠ 2) then Throw IncompatibleBranchFormat
    else
      let assignee := nth 0 slashParts "" in
      let idTitleParts := split "-" (nth 1 slashParts "") in
      if decide (List.length idTitleParts < 2) then Throw IncompatibleBranchFormat
      else
        Ok {| assignee := Some assignee;
              issueIdentifier :=
                toUpperCase (nth 0 idTitleParts "") +:+ "-" +:+ nth 1 idTitleParts "" |}
  else Throw IncompatibleBranchFormat.

(** ** The tracker *)

Record WorkflowState := {
  ws_id : string;
  ws_name : string;
  ws_type : string
}.

Record Team := {
  team_id : string;
  team_draftWorkflowState : option string   (* id of a workflow state *)
}.

Record User := {
  user_id : string;
  user_displayName : string
}.

(** An issue refers to its state, team and assignee by id; the SDK's
    [issue.state], [issue.team] and [issue.assignee] resolve the reference
    and yield [undefined] when there is nothing to resolve. *)
Record Issue := {
  issue_id : string;
  issue_state : option string;
  issue_team : option string;
  issue_assignee : option string
}.

(** The argument of [issue.update]: a partial update. *)
Record IssueUpdateInput := {
  stateId : option string;
  assigneeId : option string
}.

Record LinearClient := { apiKey : option string }.

(** What the script does to the outside, in program order. *)
Inductive Call : Type :=
  | ClientConstructed (lc : LinearClient)        (* new LinearClient(params) *)
  | ViewerQuery                                  (* lc.viewer *)
  | OrganizationQuery                            (* lc.organization *)
  | IssueQuery (id : string)                     (* lc.issue(id) *)
  | IssueStateQuery (issue : string)             (* issue.state *)
  | IssueTeamQuery (issue : string)              (* issue.team *)
  | TeamDraftStateQuery (team : string)          (* team.draftWorkflowState *)
  | IssueAssigneeQuery (issue : string)          (* issue.assignee *)
  | UsersQuery (displayName : string)            (* lc.users({ filter }) *)
  | IssueUpdate (issue : string) (input : IssueUpdateInput).  (* issue.update(input) *)

Record World := {
  env_LINEAR_API_KEY : option string;
  organization : option Organization;
  viewer : option User;
  issues : gmap string Issue;
  teams : gmap string Team;
  workflowStates : gmap string WorkflowState;
  users : list User;
  trace : list Call
}.

Definition record_call (c : Call) (w : World) : World :=
  {| env_LINEAR_API_KEY := env_LINEAR_API_KEY w;
     organization := organization w;
     viewer := viewer w;
     issues := issues w;
     teams := teams w;
     workflowStates := workflowStates w;
     users := users w;
     trace := trace w ++ [c] |}.

Definition record_calls (cs : list Call) (w : World) : World :=
  fold_left (λ w c, record_call c w) cs w.

Definition set_issues (m : gmap string Issue) (w : World) : World :=
  {| env_LINEAR_API_KEY := env_LINEAR_API_KEY w;
     organization := organization w;
     viewer := viewer w;
     issues := m;
     teams := teams w;
     workflowStates := workflowStates w;
     users := users w;
     trace := trace w |}.

(** What the references of an issue and of a team resolve to. *)
Definition state_of (w : World) (i : Issue) : option WorkflowState :=
  issue_state i ≫= λ sid, workflowStates w !! sid.

Definition team_of (w : World) (i : Issue) : option Team :=
  issue_team i ≫= λ tid, teams w !! tid.

Definition draft_state_of (w : World) (t : Team) : option WorkflowState :=
  team_draftWorkflowState t ≫= λ sid, workflowStates w !! sid.

Definition assignee_of (w : World) (i : Issue) : option User :=
  issue_assignee i ≫= λ uid, head (filter (λ u, user_id u = uid) (users w)).

(** The users whose display name is exactly [name]. *)
Definition users_named (w : World) (name : string) : list User :=
  filter (λ u, user_displayName u = name) (users w).

(** The tracker applies a partial update: only the fields present in the
    input change. *)
Definition apply_update (input : IssueUpdateInput) (i : Issue) : Issue :=
  {| issue_id := issue_id i;
     issue_state := from_option Some (issue_state i) (stateId input);
     issue_team := issue_team i;
     issue_assignee := from_option Some (issue_assignee i) (assigneeId input) |}.

(** ** Asynchronous computations *)

Definition M (A : Type) : Type := World → Result A * World.

Global Instance M_ret : MRet M := λ A a w, (Ok a, w).

Global Instance M_bind : MBind M := λ A B f m w,
  match m w with
  | (Ok a, w') => f a w'
  | (Throw e, w') => (Throw e, w')
  end.

Definition throw {A : Type} (e : Exn) : M A := λ w, (Throw e, w).
Definition request (c : Call) : M unit := λ w, (Ok tt, record_call c w).
Definition read {A : Type} (f : World → A) : M A := λ w, (Ok (f w), w).
Definition write (f : World → World) : M unit := λ w, (Ok tt, f w).

(** ** The SDK *)

Module Sdk.

(** [new LinearClient(params)]: the constructor refuses parameters without
    an API key; the script never passes an access token. *)
Definition construct (params : LinearClient) : M LinearClient :=
  if truthy (apiKey params) then
    request (ClientConstructed params);;
    mret params
  else throw missingApiKey.

Definition viewer (lc : LinearClient) : M User :=
  request ViewerQuery;;
  v ← read viewer;
  match v with
  | Some u => mret u
  | None => throw organizationError
  end.

Definition organization (lc : LinearClient) : M Organization :=
  request OrganizationQuery;;
  o ← read organization;
  match o with
  | Some org => mret org
  | None => throw organizationError
  end.

(** [lc.issue(id)]: the identifier is the key the tracker files the issue
    under. *)
Definition issue (lc : LinearClient) (id : string) : M Issue :=
  request (IssueQuery id);;
  m ← read issues;
  match m !! id with
  | Some i => mret i
  | None => throw (ApiError "Entity not found")
  end.

Definition state (i : Issue) : M (option WorkflowState) :=
  request (IssueStateQuery (issue_id i));;
  read (λ w, state_of w i).

Definition team (i : Issue) : M (option Team) :=
  request (IssueTeamQuery (issue_id i));;
  read (λ w, team_of w i).

Definition draftWorkflowState (t : Team) : M (option WorkflowState) :=
  request (TeamDraftStateQuery (team_id t));;
  read (λ w, draft_state_of w t).

Definition assignee (i : Issue) : M (option User) :=
  request (IssueAssigneeQuery (issue_id i));;
  read (λ w, assignee_of w i).

(** [lc.users({ filter: { displayName: { eq: displayName } } })], the
    [nodes] of the answer. *)
Definition users (lc : LinearClient) (displayName : string) : M (list User) :=
  request (UsersQuery displayName);;
  read (λ w, users_named w displayName).

(** [issue.update(input)] changes the tracker's record, not the local
    object. *)
Definition update (i : Issue) (input : IssueUpdateInput) : M unit :=
  request (IssueUpdate (issue_id i) input);;
  write (λ w, set_issues (alter (apply_update input) (issue_id i) (issues w)) w).

End Sdk.

(** ** The script *)

(** The parameters [newLinearClient] builds in a given world: the API key
    of the environment when there is a non-empty one, and nothing
    otherwise. *)
Definition clientOf (w : World) : LinearClient :=
  {| apiKey := if truthy (env_LINEAR_API_KEY w) then env_LINEAR_API_KEY w else None |}.

Definition newLinearClient : M LinearClient :=
  params ← read clientOf;
  Sdk.construct params.

Definition getCurrentUser (lc : LinearClient) : M User := Sdk.viewer lc.

Definition getCurrentOrganization (lc : LinearClient) : M Organization :=
  Sdk.organization lc.

Definition includes (l : list string) (x : string) : bool := bool_decide (x ∈ l).

Definition maybeUpdateIssueToTeamDraftState
    (lc : LinearClient) (issueIdentifier : string) : M Issue :=
  issue ← Sdk.issue lc issueIdentifier;
  issueState ← Sdk.state issue;
  team ← Sdk.team issue;
  match team with
  | None => throw MissingTeam
  | Some team =>
      teamDraftState ← Sdk.draftWorkflowState team;
      match teamDraftState, issueState with
      | Some teamDraftState, Some issueState =>
          if includes ["triage"; "backlog"; "unstarted"] (ws_type issueState) then
            Sdk.update issue {| stateId := Some (ws_id teamDraftState);
                                assigneeId := None |};;
            mret issue
          else mret issue
      | _, _ => throw MissingDraftStateOrIssueState
      end
  end.

Definition getUserFromDisplayName
    (lc : LinearClient) (displayName : string) : M (option User) :=
  nodes ← Sdk.users lc displayName;
  if decide (List.length nodes ≠ 1) then mret None
  else mret (nodes !! 0).

Definition maybeSetIssueAssignee
    (lc : LinearClient) (issue : Issue) (assigneeName : option string) : M Issue :=
  if negb (truthy assigneeName) then mret issue
  else
    let assigneeName := default "" assigneeName in
    assignee ← Sdk.assignee issue;
    match assignee with
    | None =>
        user ← getUserFromDisplayName lc assigneeName;
        match user with
        | None => throw AssigneeResolutionFailed
        | Some user =>
            Sdk.update issue {| stateId := None;
                                assigneeId := Some (user_id user) |};;
            mret issue
        end
    | Some _ => mret issue
    end.

Definition lift {A : Type} (r : Result A) : M A := λ w, (r, w).

Definition onCreateBranch `{UpperCase}
    (lc : LinearClient) (branchName : string) : M Issue :=
  org ← getCurrentOrganization lc;
  spec ← lift (collectAssigneeIssueIdentifierFromBranchName org branchName);
  issue ← maybeUpdateIssueToTeamDraftState lc (issueIdentifier spec);
  maybeSetIssueAssignee lc issue (assignee spec).

(** ** The process *)

Record Arguments := {
  positional : list string;       (* args._ *)
  branchName : option string      (* args.branchName *)
}.

(** How the process ends: [process.exit(code)], a promise rejected with
    nobody handling it, or all promises settled without error. *)
Inductive Termination : Type :=
  | ProcessExit (code : Z)
  | UnhandledRejection (e : Exn)
  | Completed.

(** What Node does with an unhandled rejection is the runtime's choice, not
    the script's: up to Node 14 it warns and the process exits with 0, from
    Node 15 on it throws and the process exits with 1
    ([--unhandled-rejections]). *)
Inductive UnhandledRejections : Type :=
  | WarnOnUnhandled
  | ThrowOnUnhandled.

Definition exitCode (mode : UnhandledRejections) (t : Termination) : Z :=
  match t with
  | ProcessExit code => code
  | UnhandledRejection _ =>
      match mode with
      | WarnOnUnhandled => 0
      | ThrowOnUnhandled => 1
      end
  | Completed => 0
  end%Z.

Definition failed (mode : UnhandledRejections) (t : Termination) : bool :=
  negb (bool_decide (exitCode mode t = 0%Z)).

(** The body of [main] after the argument check.  An exception of
    [newLinearClient] rejects the promise of [main], which nobody handles.
    [onCreateBranch] is started without [await]; it is the last thing the
    process does, so its calls follow those of [main] and its rejection is
    as unhandled as one of [main] itself.  The cast [args.branchName as string] is unchecked: on
    [undefined] the parser is entered all the same and throws a [TypeError]
    at [branch.split] once the format comparison has passed. *)
Definition main_body `{UpperCase} (args : Arguments) : M unit :=
  lc ← newLinearClient;
  org ← getCurrentOrganization lc;
  let command := nth 0 (positional args) "" in
  if decide (command = "on-create-branch") then
    match branchName args with
    | Some branch => onCreateBranch lc branch;; mret tt
    | None =>
        org ← getCurrentOrganization lc;
        if decide (gitBranchFormat org = supportedFormat)
        then throw splitOfUndefined
        else throw IncompatibleBranchFormat
    end
  else mret tt.

Definition main `{UpperCase} (args : Arguments) (w : World) : Termination * World :=
  if decide (List.length (positional args) ≠ 1) then (ProcessExit 1, w)
  else
    match main_body args w with
    | (Ok _, w') => (Completed, w')
    | (Throw e, w') => (UnhandledRejection e, w')
    end.

(** ** Observing a run *)

(** The calls a computation adds to the trace. *)
Definition calls_during {A : Type} (m : World → A * World) (w : World) : list Call :=
  drop (List.length (trace w)) (trace (m w).2).

(** The update calls among them, and the display names looked up. *)
Fixpoint updates_of (t : list Call) : list (string * IssueUpdateInput) :=
  match t with
  | [] => []
  | IssueUpdate i input :: t => (i, input) :: updates_of t
  | _ :: t => updates_of t
  end.

Fixpoint lookups_of (t : list Call) : list string :=
  match t with
  | [] => []
  | UsersQuery name :: t => name :: lookups_of t
  | _ :: t => lookups_of t
  end.

(** The stage of [onCreateBranch] a call belongs to: 1 fetches the
    organization, 2 is the parser (which calls nothing), 3 is the workflow
    advancer, 4 the assignee setter; 0 is what precedes them. *)
Definition stage_of (c : Call) : nat :=
  match c with
  | ClientConstructed _ | ViewerQuery => 0
  | OrganizationQuery => 1
  | IssueQuery _ | IssueStateQuery _ | IssueTeamQuery _ | TeamDraftStateQuery _ => 3
  | IssueUpdate _ input => match stateId input with Some _ => 3 | None => 4 end
  | IssueAssigneeQuery _ | UsersQuery _ => 4
  end.


(** [pieces.join(sep)], the inverse of [split]. *)
Fixpoint join (sep : ascii) (pieces : list string) : string :=
  match pieces with
  | [] => ""
  | [piece] => piece
  | piece :: rest => piece +:+ String sep (join sep rest)
  end.

(** What no run is expected to touch: the environment, the organization,
    the viewer, the teams, the workflow states and the users stay, no issue
    appears or disappears, and every issue keeps its id and its team. *)
Definition keeps_structure (w w' : World) : Prop :=
  env_LINEAR_API_KEY w' = env_LINEAR_API_KEY w ∧
  organization w' = organization w ∧
  viewer w' = viewer w ∧
  teams w' = teams w ∧
  workflowStates w' = workflowStates w ∧
  users w' = users w ∧
  ∀ k, issue_id <$> issues w' !! k = issue_id <$> issues w !! k ∧
       issue_team <$> issues w' !! k = issue_team <$> issues w !! k.

(** ** A sample tracker *)

Module Sample.

Definition ready : WorkflowState :=
  {| ws_id := "st-ready"; ws_name := "Ready"; ws_type := "started" |}.
Definition triage : WorkflowState :=
  {| ws_id := "st-triage"; ws_name := "Triage"; ws_type := "triage" |}.
Definition eng : Team :=
  {| team_id := "team-eng"; team_draftWorkflowState := Some "st-ready" |}.
Definition bob : User := {| user_id := "u-bob"; user_displayName := "bob" |}.
Definition alice : User := {| user_id := "u-alice"; user_displayName := "alice" |}.
Definition eng42 : Issue :=
  {| issue_id := "ENG-42"; issue_state := Some "st-triage";
     issue_team := Some "team-eng"; issue_assignee := None |}.

Definition started : WorkflowState :=
  {| ws_id := "st-started"; ws_name := "In Progress"; ws_type := "started" |}.
Definition eng7 : Issue :=
  {| issue_id := "ENG-7"; issue_state := Some "st-started";
     issue_team := Some "team-eng"; issue_assignee := Some "u-alice" |}.
(** An issue of no team. *)
Definition eng9 : Issue :=
  {| issue_id := "ENG-9"; issue_state := Some "st-triage";
     issue_team := None; issue_assignee := None |}.

Definition org : Organization := {| gitBranchFormat := supportedFormat |}.
Definition lc : LinearClient := {| apiKey := Some "lin_api_key" |}.

Definition world : World :=
  {| env_LINEAR_API_KEY := Some "lin_api_key";
     organization := Some org;
     viewer := Some bob;
     issues := {[ "ENG-42" := eng42; "ENG-7" := eng7; "ENG-9" := eng9 ]};
     teams := {[ "team-eng" := eng ]};
     workflowStates :=
       {[ "st-ready" := ready; "st-triage" := triage; "st-started" := started ]};
     users := [alice; bob];
     trace := [] |}.

Definition args : Arguments :=
  {| positional := ["on-create-branch"];
     branchName := Some "bob/eng-42-refactor-login" |}.

(** The same tracker, reached from an environment without API key. *)
Definition keyless : World :=
  {| env_LINEAR_API_KEY := None;
     organization := organization world;
     viewer := viewer world;
     issues := issues world;
     teams := teams world;
     workflowStates := workflowStates world;
     users := users world;
     trace := [] |}.

End Sample.

(** * Properties *)

(** ** Splitting *)

Lemma append_cons d s t : String d s +:+ t = String d (s +:+ t).
Proof. reflexivity. Qed.

Lemma append_nil t : "" +:+ t = t.
Proof. reflexivity. Qed.

Section Split.

Context (c : ascii).

Local Abbreviation before_first := (before_first c).
Local Abbreviation after_first := (after_first c).

Lemma split_length s : List.length (split c s) = S (count_char c s).
Proof.
  induction s as [|d rest IH]; simpl; [done|].
  case_decide; simpl; [by rewrite IH|].
  destruct (split c rest); simpl in *; lia.
Qed.

Lemma split_unfold s :
  split c s =
  before_first s ::
    (if decide (count_char c s = 0) then [] else split c (after_first s)).
Proof.
  induction s as [|d rest IH]; simpl; [done|].
  destruct (decide (d = c)) as [->|Hd]; simpl.
  - by case_decide.
  - rewrite IH. by case_decide.
Qed.

Lemma before_first_absent s : count_char c s = 0 → before_first s = s.
Proof.
  induction s as [|d rest IH]; simpl; [done|].
  case_decide; simpl; [lia|]. intros Hc. by rewrite IH.
Qed.

Lemma count_after_first s n :
  count_char c s = S n → count_char c (after_first s) = n.
Proof.
  induction s as [|d rest IH]; simpl; [done|].
  case_decide; simpl; [lia|]. done.
Qed.

Lemma count_before_first s : count_char c (before_first s) = 0.
Proof.
  induction s as [|d rest IH]; simpl; [done|].
  case_decide; simpl; [done|]. by case_decide.
Qed.

Lemma before_after_first s :
  count_char c s ≠ 0 → s = before_first s +:+ String c (after_first s).
Proof.
  induction s as [|d rest IH]; simpl; [done|].
  case_decide; simpl; [by subst|]. intros Hc. rewrite append_cons. f_equal. by apply IH.
Qed.

Lemma split_absent s : count_char c s = 0 → split c s = [s].
Proof.
  intros H. rewrite split_unfold, (before_first_absent _ H).
  by case_decide.
Qed.

Lemma split_once s :
  count_char c s = 1 → split c s = [before_first s; after_first s].
Proof.
  intros H. rewrite split_unfold. case_decide; [lia|].
  by rewrite (split_absent _ (count_after_first _ _ H)).
Qed.

Lemma split_present s :
  count_char c s ≠ 0 →
  ∃ tl, split c s = before_first s :: before_first (after_first s) :: tl.
Proof.
  intros H. rewrite split_unfold. case_decide; [done|].
  rewrite split_unfold. eauto.
Qed.

Lemma count_app s t : count_char c (s +:+ t) = count_char c s + count_char c t.
Proof.
  induction s as [|d rest IH]; [done|].
  rewrite append_cons. simpl. rewrite IH. lia.
Qed.

Lemma before_first_app s t :
  count_char c s = 0 → before_first (s +:+ String c t) = s.
Proof.
  induction s as [|d rest IH]; [rewrite append_nil; simpl; by case_decide|].
  rewrite append_cons. simpl.
  case_decide; simpl; [lia|]. intros Hc. by rewrite IH.
Qed.

Lemma after_first_app s t :
  count_char c s = 0 → after_first (s +:+ String c t) = t.
Proof.
  induction s as [|d rest IH]; [rewrite append_nil; simpl; by case_decide|].
  rewrite append_cons. simpl.
  case_decide; simpl; [lia|]. done.
Qed.

End Split.

(** ** The parser *)

Section Parser.

Context {U : UpperCase} (org : Organization).

Local Abbreviation parse := (collectAssigneeIssueIdentifierFromBranchName org).

Lemma parse_unsupported branch :
  gitBranchFormat org ≠ supportedFormat →
  parse branch = Throw IncompatibleBranchFormat.
Proof.
  intros Hf. unfold collectAssigneeIssueIdentifierFromBranchName.
  by case_decide.
Qed.

Lemma parse_slashes branch :
  count_char "/" branch ≠ 1 → parse branch = Throw IncompatibleBranchFormat.
Proof.
  intros Hn. unfold collectAssigneeIssueIdentifierFromBranchName.
  case_decide; [|done]. rewrite split_length.
  case_decide; [done|lia].
Qed.

Lemma parse_no_hyphen branch :
  count_char "/" branch = 1 →
  count_char "-" (after_first "/" branch) = 0 →
  parse branch = Throw IncompatibleBranchFormat.
Proof.
  intros Hs Hh. unfold collectAssigneeIssueIdentifierFromBranchName.
  case_decide; [|done]. rewrite (split_once _ _ Hs). simpl.
  rewrite split_length, Hh. case_decide; [done|lia].
Qed.

Lemma parse_ok branch :
  gitBranchFormat org = supportedFormat →
  count_char "/" branch = 1 →
  count_char "-" (after_first "/" branch) ≠ 0 →
  parse branch =
  Ok {| assignee := Some (before_first "/" branch);
        issueIdentifier :=
          toUpperCase (before_first "-" (after_first "/" branch))
          +:+ "-"
          +:+ before_first "-" (after_first "-" (after_first "/" branch)) |}.
Proof.
  intros Hf Hs Hh. unfold collectAssigneeIssueIdentifierFromBranchName.
  case_decide; [|done]. rewrite (split_once _ _ Hs). simpl.
  destruct (split_present _ _ Hh) as [tl ->].
  case_decide as Hlen; [simpl in Hlen; lia|done].
Qed.

End Parser.

Example parse_eng :
  collectAssigneeIssueIdentifierFromBranchName
    {| gitBranchFormat := supportedFormat |} "eng/eng-5-fix"
  = Ok {| assignee := Some "eng"; issueIdentifier := "ENG-5" |}.
Proof. reflexivity. Qed.

(** ** Running the script *)

Lemma calls_during_app {A : Type} (m : World → A * World) w t :
  trace (m w).2 = trace w ++ t → calls_during m w = t.
Proof. intros H. unfold calls_during. rewrite H. apply drop_app_length. Qed.

Lemma trace_record_calls cs w : trace (record_calls cs w) = trace w ++ cs.
Proof.
  revert w. induction cs as [|c cs IH]; intros w; simpl.
  - by rewrite app_nil_r.
  - unfold record_calls in *. simpl. rewrite IH. simpl. by rewrite <- app_assoc.
Qed.

Lemma issues_record_calls cs w : issues (record_calls cs w) = issues w.
Proof.
  revert w. induction cs as [|c cs IH]; intros w; [done|].
  unfold record_calls in *. simpl. by rewrite IH.
Qed.

Lemma calls_during_record {A : Type} (m : World → A * World) w cs :
  trace (m w).2 = trace (record_calls cs w) → calls_during m w = cs.
Proof. rewrite trace_record_calls. apply calls_during_app. Qed.

(** The advancer, with the worlds it passes through written out. *)
Lemma advancer_run lc ident w :
  maybeUpdateIssueToTeamDraftState lc ident w =
  match issues w !! ident with
  | None => (Throw (ApiError "Entity not found"), record_calls [IssueQuery ident] w)
  | Some issue =>
      let fetched :=
        [IssueQuery ident; IssueStateQuery (issue_id issue);
         IssueTeamQuery (issue_id issue)] in
      match team_of w issue with
      | None => (Throw MissingTeam, record_calls fetched w)
      | Some team =>
          let resolved := fetched ++ [TeamDraftStateQuery (team_id team)] in
          match draft_state_of w team, state_of w issue with
          | Some draft, Some st =>
              if includes ["triage"; "backlog"; "unstarted"] (ws_type st) then
                let input := {| stateId := Some (ws_id draft); assigneeId := None |} in
                (Ok issue,
                 set_issues (alter (apply_update input) (issue_id issue) (issues w))
                   (record_calls (resolved ++ [IssueUpdate (issue_id issue) input]) w))
              else (Ok issue, record_calls resolved w)
          | _, _ => (Throw MissingDraftStateOrIssueState, record_calls resolved w)
          end
      end
  end.
Proof.
  unfold maybeUpdateIssueToTeamDraftState.
  cbv [mbind M_bind mret M_ret request read write throw
       Sdk.issue Sdk.state Sdk.team Sdk.draftWorkflowState Sdk.update].
  change (issues (record_call (IssueQuery ident) w)) with (issues w).
  destruct (issues w !! ident) as [issue|]; [|done].
  change (team_of (record_call _ (record_call _ (record_call _ w))) issue)
    with (team_of w issue).
  destruct (team_of w issue) as [team|]; [|done].
  change (draft_state_of (record_call ?c (record_call _ (record_call _ (record_call _ w)))) team)
    with (draft_state_of w team).
  destruct (draft_state_of w team) as [draft|]; [|done].
  change (state_of (record_call _ (record_call _ w)) issue) with (state_of w issue).
  destruct (state_of w issue) as [st|]; [|done].
  by destruct (includes _ _).
Qed.

(** The assignee setter, likewise. *)
Lemma setter_run lc issue name w :
  maybeSetIssueAssignee lc issue name w =
  if negb (truthy name) then (Ok issue, w)
  else
    match assignee_of w issue with
    | Some _ => (Ok issue, record_calls [IssueAssigneeQuery (issue_id issue)] w)
    | None =>
        let asked :=
          [IssueAssigneeQuery (issue_id issue); UsersQuery (default "" name)] in
        match users_named w (default "" name) with
        | [user] =>
            let input := {| stateId := None; assigneeId := Some (user_id user) |} in
            (Ok issue,
             set_issues (alter (apply_update input) (issue_id issue) (issues w))
               (record_calls (asked ++ [IssueUpdate (issue_id issue) input]) w))
        | _ => (Throw AssigneeResolutionFailed, record_calls asked w)
        end
    end.
Proof.
  unfold maybeSetIssueAssignee.
  destruct (negb (truthy name)); [done|].
  cbv [mbind M_bind mret M_ret request read write throw
       Sdk.assignee Sdk.users Sdk.update getUserFromDisplayName].
  change (assignee_of (record_call _ w) issue) with (assignee_of w issue).
  destruct (assignee_of w issue) as [u|]; [done|].
  change (users_named (record_call ?c (record_call _ w)) ?n) with (users_named w n).
  destruct (users_named w (default "" name)) as [|u [|u' us]]; done.
Qed.

(** ** The workflow advancer *)

Section Advancer.

Context (lc : LinearClient) (w : World).

Local Abbreviation advance ident := (maybeUpdateIssueToTeamDraftState lc ident).

Lemma includes_spec (l : list string) x : includes l x = true ↔ x ∈ l.
Proof. unfold includes. apply bool_decide_eq_true. Qed.

Lemma advancer_advances ident issue st team draft :
  issues w !! ident = Some issue →
  state_of w issue = Some st →
  team_of w issue = Some team →
  draft_state_of w team = Some draft →
  ws_type st ∈ ["triage"; "backlog"; "unstarted"] →
  let input := {| stateId := Some (ws_id draft); assigneeId := None |} in
  (advance ident w).1 = Ok issue ∧
  calls_during (advance ident) w =
    [IssueQuery ident; IssueStateQuery (issue_id issue);
     IssueTeamQuery (issue_id issue); TeamDraftStateQuery (team_id team);
     IssueUpdate (issue_id issue) input] ∧
  issues (advance ident w).2 =
    alter (apply_update input) (issue_id issue) (issues w).
Proof.
  intros Hi Hs Ht Hd Hin%includes_spec input.
  assert (Hrun := advancer_run lc ident w).
  rewrite Hi, Ht, Hd, Hs, Hin in Hrun. cbv zeta in Hrun.
  split_and!.
  - by rewrite Hrun.
  - apply calls_during_record. by rewrite Hrun.
  - by rewrite Hrun.
Qed.

Lemma advancer_leaves ident issue st team draft :
  issues w !! ident = Some issue →
  state_of w issue = Some st →
  team_of w issue = Some team →
  draft_state_of w team = Some draft →
  ws_type st ∉ ["triage"; "backlog"; "unstarted"] →
  (advance ident w).1 = Ok issue ∧
  calls_during (advance ident) w =
    [IssueQuery ident; IssueStateQuery (issue_id issue);
     IssueTeamQuery (issue_id issue); TeamDraftStateQuery (team_id team)] ∧
  issues (advance ident w).2 = issues w.
Proof.
  intros Hi Hs Ht Hd Hin.
  assert (Hrun := advancer_run lc ident w).
  rewrite Hi, Ht, Hd, Hs in Hrun. cbv zeta in Hrun.
  destruct (includes _ _) eqn:E; [by apply includes_spec in E|].
  split_and!.
  - by rewrite Hrun.
  - apply calls_during_record. by rewrite Hrun.
  - rewrite Hrun. apply issues_record_calls.
Qed.

Lemma advancer_refuses ident issue :
  issues w !! ident = Some issue →
  team_of w issue = None ∨
  (∃ team, team_of w issue = Some team ∧
           (draft_state_of w team = None ∨ state_of w issue = None)) →
  (advance ident w).1 =
    Throw (match team_of w issue with
           | None => MissingTeam
           | Some _ => MissingDraftStateOrIssueState
           end) ∧
  updates_of (calls_during (advance ident) w) = [] ∧
  lookups_of (calls_during (advance ident) w) = [] ∧
  issues (advance ident w).2 = issues w.
Proof.
  intros Hi Hv.
  assert (Hrun := advancer_run lc ident w).
  rewrite Hi in Hrun. cbv zeta in Hrun.
  destruct Hv as [Ht|(team & Ht & Hv)]; rewrite Ht in Hrun |- *.
  - rewrite Hrun. split_and!; [done| | |apply issues_record_calls];
      by erewrite calls_during_record by (by rewrite Hrun).
  - assert ((advance ident w) =
            (Throw MissingDraftStateOrIssueState,
             record_calls
               ([IssueQuery ident; IssueStateQuery (issue_id issue);
                 IssueTeamQuery (issue_id issue)]
                ++ [TeamDraftStateQuery (team_id team)]) w)) as Hrun'.
    { rewrite Hrun. destruct Hv as [-> | ->]; [done|].
      by destruct (draft_state_of w team). }
    rewrite Hrun'. split_and!; [done| | |apply issues_record_calls];
      by erewrite calls_during_record by (by rewrite Hrun').
Qed.

End Advancer.

(** Running the advancer again on the issue it has just advanced changes
    nothing, provided the draft state is itself past unstarted (it is what
    the issue is in now). *)
Lemma advancer_rerun lc w ident issue st team draft :
  issues w !! ident = Some issue →
  issue_id issue = ident →
  state_of w issue = Some st →
  team_of w issue = Some team →
  draft_state_of w team = Some draft →
  workflowStates w !! ws_id draft = Some draft →
  ws_type st ∈ ["triage"; "backlog"; "unstarted"] →
  ws_type draft ∉ ["triage"; "backlog"; "unstarted"] →
  let advance := maybeUpdateIssueToTeamDraftState lc ident in
  let advanced := (advance w).2 in
  updates_of (calls_during advance advanced) = [] ∧
  issues (advance advanced).2 = issues advanced.
Proof.
  intros Hi Hid Hs Ht Hd Hdraft Hin Hout advance advanced. subst advance.
  assert (Hrun := advancer_run lc ident w).
  apply includes_spec in Hin.
  rewrite Hi, Ht, Hd, Hs, Hin in Hrun. cbv zeta in Hrun.
  set (input := {| stateId := Some (ws_id draft); assigneeId := None |}) in *.
  assert (issues advanced !! ident = Some (apply_update input issue)) as Hi'.
  { unfold advanced. rewrite Hrun. cbn [snd issues set_issues].
    by rewrite Hid, lookup_alter_eq, Hi. }
  assert (workflowStates advanced = workflowStates w ∧ teams advanced = teams w)
    as [Hws Hteams].
  { unfold advanced. rewrite Hrun. done. }
  destruct (advancer_leaves lc advanced ident (apply_update input issue) draft team draft)
    as (_ & Hc & Hw); [done| | | |done|].
  - unfold state_of. by rewrite Hws.
  - unfold team_of. by rewrite Hteams.
  - unfold draft_state_of. by rewrite Hws.
  - by rewrite Hc.
Qed.

(** ** The orchestrator and the process *)

Lemma onCreateBranch_run {U : UpperCase} lc branch w :
  onCreateBranch lc branch w =
  let w1 := record_calls [OrganizationQuery] w in
  match organization w with
  | None => (Throw organizationError, w1)
  | Some org =>
      match collectAssigneeIssueIdentifierFromBranchName org branch with
      | Throw e => (Throw e, w1)
      | Ok spec =>
          match maybeUpdateIssueToTeamDraftState lc (issueIdentifier spec) w1 with
          | (Throw e, w2) => (Throw e, w2)
          | (Ok issue, w2) => maybeSetIssueAssignee lc issue (assignee spec) w2
          end
      end
  end.
Proof.
  unfold onCreateBranch, getCurrentOrganization, Sdk.organization.
  cbv [mbind M_bind mret M_ret request read throw lift].
  change (organization (record_call OrganizationQuery w)) with (organization w).
  destruct (organization w) as [org|]; [|done].
  by destruct (collectAssigneeIssueIdentifierFromBranchName org branch).
Qed.

Lemma newLinearClient_run w :
  newLinearClient w =
  if truthy (env_LINEAR_API_KEY w)
  then (Ok (clientOf w), record_calls [ClientConstructed (clientOf w)] w)
  else (Throw missingApiKey, w).
Proof.
  unfold newLinearClient, Sdk.construct, clientOf.
  cbv [mbind M_bind mret M_ret request read throw]. cbn [apiKey].
  destruct (env_LINEAR_API_KEY w) as [[|c key]|]; done.
Qed.

(** The run of [main] on any one-command argument list. *)
Lemma main_run_any {U : UpperCase} command given w :
  main {| positional := [command]; branchName := given |} w =
  if truthy (env_LINEAR_API_KEY w) then
    let lc := clientOf w in
    let w1 := record_calls [ClientConstructed lc; OrganizationQuery] w in
    match organization w with
    | None => (UnhandledRejection organizationError, w1)
    | Some org =>
        if decide (command = "on-create-branch") then
          match given with
          | Some branch =>
              match onCreateBranch lc branch w1 with
              | (Ok _, w2) => (Completed, w2)
              | (Throw e, w2) => (UnhandledRejection e, w2)
              end
          | None =>
              (UnhandledRejection
                 (if decide (gitBranchFormat org = supportedFormat)
                  then splitOfUndefined else IncompatibleBranchFormat),
               record_calls [OrganizationQuery] w1)
          end
        else (Completed, w1)
    end
  else (UnhandledRejection missingApiKey, w).
Proof.
  unfold main, main_body. cbn [positional branchName List.length nth].
  case_decide; [done|].
  cbv [mbind M_bind]. rewrite newLinearClient_run.
  destruct (truthy (env_LINEAR_API_KEY w)); [|done].
  unfold getCurrentOrganization, Sdk.organization.
  cbv [mbind M_bind mret M_ret request read throw]. cbv zeta.
  change (organization (record_call _ (record_calls _ w))) with (organization w).
  destruct (organization w) as [org|] eqn:Horg; [|done].
  case_decide; [|done].
  destruct given as [branch|].
  - by destruct (onCreateBranch _ _ _) as [[]].
  - change (organization (record_call _ (record_call _ (record_calls _ w))))
      with (organization w).
    rewrite Horg. by case_decide.
Qed.

Lemma main_run {U : UpperCase} branch w :
  truthy (env_LINEAR_API_KEY w) = true →
  main {| positional := ["on-create-branch"]; branchName := Some branch |} w =
  let lc := clientOf w in
  let w1 := record_calls [ClientConstructed lc; OrganizationQuery] w in
  match organization w with
  | None => (UnhandledRejection organizationError, w1)
  | Some _ =>
      match onCreateBranch lc branch w1 with
      | (Ok _, w2) => (Completed, w2)
      | (Throw e, w2) => (UnhandledRejection e, w2)
      end
  end.
Proof.
  intros Hkey. rewrite main_run_any, Hkey. cbv zeta.
  destruct (organization w); [|done]. by rewrite decide_True.
Qed.

Lemma main_run_undefined {U : UpperCase} w :
  truthy (env_LINEAR_API_KEY w) = true →
  main {| positional := ["on-create-branch"]; branchName := None |} w =
  let lc := clientOf w in
  match organization w with
  | None =>
      (UnhandledRejection organizationError,
       record_calls [ClientConstructed lc; OrganizationQuery] w)
  | Some org =>
      (UnhandledRejection
         (if decide (gitBranchFormat org = supportedFormat)
          then splitOfUndefined else IncompatibleBranchFormat),
       record_calls [ClientConstructed lc; OrganizationQuery; OrganizationQuery] w)
  end.
Proof.
  intros Hkey. rewrite main_run_any, Hkey. cbv zeta.
  destruct (organization w); [|done]. by rewrite decide_True.
Qed.

(** Each stage only adds calls of its own. *)
Lemma advancer_calls lc ident w :
  ∃ t, trace (maybeUpdateIssueToTeamDraftState lc ident w).2 = trace w ++ t ∧
       Forall (λ c, stage_of c = 3) t.
Proof.
  rewrite advancer_run.
  destruct (issues w !! ident) as [issue|]; cbv zeta;
    [destruct (team_of w issue) as [team|];
     [destruct (draft_state_of w team), (state_of w issue);
      [destruct (includes _ _)|..]|]|];
    cbn [snd trace set_issues]; rewrite trace_record_calls;
    eexists; (split; [reflexivity|]); repeat constructor.
Qed.

Lemma setter_calls lc issue name w :
  ∃ t, trace (maybeSetIssueAssignee lc issue name w).2 = trace w ++ t ∧
       Forall (λ c, stage_of c = 4) t.
Proof.
  rewrite setter_run.
  destruct (negb (truthy name)).
  { exists []. by rewrite app_nil_r. }
  destruct (assignee_of w issue); cbv zeta;
    [|destruct (users_named w _) as [|u [|u' us]]];
    cbn [snd trace set_issues]; rewrite trace_record_calls;
    eexists; (split; [reflexivity|]); repeat constructor.
Qed.



Lemma calls_during_none {A : Type} (m : World → A * World) w :
  (m w).2 = w → calls_during m w = [].
Proof. intros H. apply calls_during_app. by rewrite H, app_nil_r. Qed.

Lemma parse_assignee {U : UpperCase} org branch spec :
  collectAssigneeIssueIdentifierFromBranchName org branch = Ok spec →
  assignee spec = Some (before_first "/" branch).
Proof.
  unfold collectAssigneeIssueIdentifierFromBranchName.
  case_decide; [|done]. cbv zeta.
  case_decide; [done|]. case_decide; [done|].
  intros [= <-]. simpl. by rewrite split_unfold.
Qed.

(** * The claims *)

(** ** Parsing *)

(** C1.  Under the supported format, a branch with exactly one '/' and at
    least one '-' after it parses to the BranchSpec whose assignee is the
    text before the '/' and whose issue identifier is the uppercased first
    '-'-separated part of the text after the '/', a '-', and the second part
    as it stands; what follows the second part does not enter the result. *)
Theorem parse_branch_spec {U : UpperCase} org branch :
  gitBranchFormat org = supportedFormat →
  count_char "/" branch = 1 →
  1 ≤ count_char "-" (after_first "/" branch) →
  collectAssigneeIssueIdentifierFromBranchName org branch =
  Ok {| assignee := Some (before_first "/" branch);
        issueIdentifier :=
          toUpperCase (before_first "-" (after_first "/" branch))
          +:+ "-"
          +:+ before_first "-" (after_first "-" (after_first "/" branch)) |}.
Proof. intros Hf Hs Hh. apply parse_ok; [done|done|lia]. Qed.

Lemma parse_branch_spec_witness :
  collectAssigneeIssueIdentifierFromBranchName Sample.org "user/ab-123-some-title"
  = Ok {| assignee := Some "user"; issueIdentifier := "AB-123" |}.
Proof.
  refine (parse_branch_spec Sample.org "user/ab-123-some-title" _ _ _);
    [reflexivity | reflexivity | vm_compute; lia].
Defined.

(** C5.  Parsing fails exactly when the configured format is not the
    supported one, or splitting the branch on '/' does not give two
    segments, or splitting the second segment on '-' gives fewer than two
    parts; said with occurrences: the branch does not hold exactly one '/',
    or no '-' follows it.  The failure is always IncompatibleBranchFormat. *)
Theorem parse_fails_iff {U : UpperCase} org branch :
  let parsed := collectAssigneeIssueIdentifierFromBranchName org branch in
  (parsed = Throw IncompatibleBranchFormat ↔
     gitBranchFormat org ≠ supportedFormat
     ∨ List.length (split "/" branch) ≠ 2
     ∨ List.length (split "-" (nth 1 (split "/" branch) "")) < 2)
  ∧ (parsed = Throw IncompatibleBranchFormat ↔
       gitBranchFormat org ≠ supportedFormat
       ∨ count_char "/" branch ≠ 1
       ∨ count_char "-" (after_first "/" branch) = 0)
  ∧ (∀ e, parsed = Throw e → e = IncompatibleBranchFormat).
Proof.
  intros parsed. subst parsed.
  destruct (decide (gitBranchFormat org = supportedFormat)) as [Hf|Hf];
    [|rewrite (parse_unsupported _ _ Hf); split_and!; [tauto|tauto|congruence]].
  destruct (decide (count_char "/" branch = 1)) as [Hs|Hs];
    [|rewrite (parse_slashes _ _ Hs), split_length;
      split_and!; [split; [right; left; lia|done]|tauto|congruence]].
  destruct (decide (count_char "-" (after_first "/" branch) = 0)) as [Hh|Hh].
  - rewrite (parse_no_hyphen _ _ Hs Hh), (split_once _ _ Hs). simpl.
    rewrite split_length, Hh.
    split_and!; [split; [right; right; lia|done]|tauto|congruence].
  - rewrite (parse_ok _ _ Hf Hs Hh), (split_once _ _ Hs). simpl.
    rewrite split_length.
    split_and!; [split; [done|intros [?|[?|?]]; [done|lia|lia]]
                |split; [done|intros [?|[?|?]]; done]|done].
Qed.

Lemma parse_fails_iff_witness :
  collectAssigneeIssueIdentifierFromBranchName Sample.org "user/hotfix"
  = Throw IncompatibleBranchFormat.
Proof.
  apply (proj1 (proj2 (parse_fails_iff Sample.org "user/hotfix"))).
  right. right. reflexivity.
Defined.

(** C9.  The parser checks the split counts and nothing else: whatever the
    text before the '/' and whatever the parts after it, as long as there is
    one '/' and a '-' after it, parsing succeeds; the parts need be neither
    a team prefix nor a number. *)
Theorem parse_checks_counts_only {U : UpperCase} org user segment :
  gitBranchFormat org = supportedFormat →
  count_char "/" user = 0 →
  count_char "/" segment = 0 →
  1 ≤ count_char "-" segment →
  collectAssigneeIssueIdentifierFromBranchName org (user +:+ "/" +:+ segment) =
  Ok {| assignee := Some user;
        issueIdentifier :=
          toUpperCase (before_first "-" segment)
          +:+ "-" +:+ before_first "-" (after_first "-" segment) |}.
Proof.
  intros Hf Hu Hseg Hh.
  change (user +:+ "/" +:+ segment) with (user +:+ String "/" segment).
  rewrite parse_ok; [|done| |].
  - by rewrite before_first_app, after_first_app.
  - rewrite count_app. simpl. lia.
  - rewrite after_first_app by done. lia.
Qed.

Lemma parse_checks_counts_only_witness :
  collectAssigneeIssueIdentifierFromBranchName Sample.org "user/fix-bug"
  = Ok {| assignee := Some "user"; issueIdentifier := "FIX-bug" |}.
Proof.
  refine (parse_checks_counts_only Sample.org "user" "fix-bug" _ _ _ _);
    [reflexivity | reflexivity | reflexivity | vm_compute; lia].
Defined.

(** C10.  A successful parse never leaves the assignee null: it is the text
    before the '/', which is the empty string for a branch that starts with
    '/'.  The assignee setter treats that empty string as it treats null: it
    returns the issue at once, with no lookup and no update. *)
Theorem parse_assignee_never_null {U : UpperCase} org branch spec lc issue w :
  collectAssigneeIssueIdentifierFromBranchName org branch = Ok spec →
  let set name := maybeSetIssueAssignee lc issue name in
  assignee spec = Some (before_first "/" branch) ∧
  (before_first "/" branch = "" →
   set (assignee spec) w = set None w ∧
   set (assignee spec) w = (Ok issue, w) ∧
   calls_during (set (assignee spec)) w = []).
Proof.
  intros Hp%parse_assignee set. split; [done|].
  intros Hempty. rewrite Hp, Hempty. subst set. cbv beta.
  rewrite !setter_run. simpl. split_and!; [done|done|].
  apply calls_during_none. by rewrite setter_run.
Qed.

Lemma parse_assignee_never_null_witness :
  let spec := {| assignee := Some ""; issueIdentifier := "ENG-5" |} in
  collectAssigneeIssueIdentifierFromBranchName Sample.org "/eng-5-fix" = Ok spec ∧
  maybeSetIssueAssignee Sample.lc Sample.eng42 (Some "") Sample.world
  = (Ok Sample.eng42, Sample.world).
Proof.
  intros spec.
  assert (collectAssigneeIssueIdentifierFromBranchName Sample.org "/eng-5-fix"
          = Ok spec) as Hp by reflexivity.
  split; [exact Hp|].
  exact (proj1 (proj2 (proj2
    (parse_assignee_never_null Sample.org "/eng-5-fix" spec
       Sample.lc Sample.eng42 Sample.world Hp) eq_refl))).
Defined.

(** ** The workflow advancer *)

(** C2.  When the issue, its state, its team and the team's draft state
    resolve, the advancer returns the issue and: if the state's type is
    triage, backlog or unstarted, it issues exactly one update, which sets
    stateId to the draft state's id; for any other type it issues no update
    and the tracker's issues stay as they were. *)
Theorem advancer_transition lc ident w issue st team draft :
  issues w !! ident = Some issue →
  state_of w issue = Some st →
  team_of w issue = Some team →
  draft_state_of w team = Some draft →
  let advance := maybeUpdateIssueToTeamDraftState lc ident in
  let input := {| stateId := Some (ws_id draft); assigneeId := None |} in
  (advance w).1 = Ok issue ∧
  if decide (ws_type st ∈ ["triage"; "backlog"; "unstarted"]) then
    updates_of (calls_during advance w) = [(issue_id issue, input)] ∧
    issues (advance w).2 = alter (apply_update input) (issue_id issue) (issues w)
  else
    updates_of (calls_during advance w) = [] ∧
    issues (advance w).2 = issues w.
Proof.
  intros Hi Hs Ht Hd advance input. subst advance.
  case_decide as Hin.
  - destruct (advancer_advances lc w ident issue st team draft) as (Hr & Hc & Hw);
      [done..|].
    by rewrite Hr, Hc, Hw.
  - destruct (advancer_leaves lc w ident issue st team draft) as (Hr & Hc & Hw);
      [done..|].
    by rewrite Hr, Hc, Hw.
Qed.

Lemma advancer_transition_witness :
  let advance := maybeUpdateIssueToTeamDraftState Sample.lc "ENG-42" in
  let input := {| stateId := Some "st-ready"; assigneeId := None |} in
  (advance Sample.world).1 = Ok Sample.eng42 ∧
  if decide (ws_type Sample.triage ∈ ["triage"; "backlog"; "unstarted"]) then
    updates_of (calls_during advance Sample.world) = [("ENG-42", input)] ∧
    issues (advance Sample.world).2 =
      alter (apply_update input) "ENG-42" (issues Sample.world)
  else
    updates_of (calls_during advance Sample.world) = [] ∧
    issues (advance Sample.world).2 = issues Sample.world.
Proof.
  apply (advancer_transition Sample.lc "ENG-42" Sample.world
           Sample.eng42 Sample.triage Sample.eng Sample.ready);
    reflexivity.
Defined.

(** C6.  The advancer throws, with no update issued, when the fetched issue
    has no team (MissingTeam), and when the team has no draft state or the
    issue's state does not resolve (MissingDraftStateOrIssueState); the
    orchestrator then ends with the same error, and neither an update nor a
    user lookup nor any call of the assignee setter is made. *)
Theorem advancer_preconditions {U : UpperCase} lc ident w issue :
  issues w !! ident = Some issue →
  team_of w issue = None ∨
  (∃ team, team_of w issue = Some team ∧
           (draft_state_of w team = None ∨ state_of w issue = None)) →
  let e := match team_of w issue with
           | None => MissingTeam
           | Some _ => MissingDraftStateOrIssueState
           end in
  let advance := maybeUpdateIssueToTeamDraftState lc ident in
  ((advance w).1 = Throw e ∧
   updates_of (calls_during advance w) = [] ∧
   issues (advance w).2 = issues w) ∧
  ∀ branch org spec,
    organization w = Some org →
    collectAssigneeIssueIdentifierFromBranchName org branch = Ok spec →
    issueIdentifier spec = ident →
    let whole := onCreateBranch lc branch in
    (whole w).1 = Throw e ∧
    updates_of (calls_during whole w) = [] ∧
    lookups_of (calls_during whole w) = [] ∧
    Forall (λ c, stage_of c ≤ 3) (calls_during whole w) ∧
    issues (whole w).2 = issues w.
Proof.
  intros Hi Hv e advance. subst advance. split.
  { destruct (advancer_refuses lc w ident issue Hi Hv) as (Hr & Hu & _ & Hw).
    done. }
  intros branch org spec Horg Hp <- whole. subst whole.
  set (w1 := record_calls [OrganizationQuery] w).
  destruct (advancer_refuses lc w1 (issueIdentifier spec) issue Hi Hv)
    as (Hr & Hu & Hl & Hw).
  destruct (advancer_calls lc (issueIdentifier spec) w1) as (t & Ht & Hst).
  rewrite (calls_during_app _ _ _ Ht) in Hu, Hl.
  assert (onCreateBranch lc branch w =
          (Throw e, (maybeUpdateIssueToTeamDraftState lc (issueIdentifier spec) w1).2))
    as Hrun.
  { rewrite onCreateBranch_run, Horg, Hp. cbv zeta. fold w1.
    destruct (maybeUpdateIssueToTeamDraftState _ _ w1) as [r w2].
    simpl in Hr. by subst r. }
  assert (calls_during (onCreateBranch lc branch) w = OrganizationQuery :: t) as Hc.
  { apply calls_during_app. rewrite Hrun. cbn [snd]. rewrite Ht.
    unfold w1. rewrite trace_record_calls. by rewrite <- app_assoc. }
  rewrite Hc, Hrun. cbn [fst snd updates_of lookups_of].
  split_and!; [done|done|done| |done].
  constructor; [simpl; lia|].
  eapply Forall_impl; [exact Hst|]. intros c ->. done.
Qed.

Lemma advancer_preconditions_witness :
  (maybeUpdateIssueToTeamDraftState Sample.lc "ENG-9" Sample.world).1
  = Throw MissingTeam ∧
  (onCreateBranch Sample.lc "bob/eng-9-orphan" Sample.world).1
  = Throw MissingTeam.
Proof.
  pose proof (advancer_preconditions Sample.lc "ENG-9" Sample.world Sample.eng9
                eq_refl (or_introl eq_refl)) as [(Hr & _) Hwhole].
  split; [exact Hr|].
  exact (proj1 (Hwhole "bob/eng-9-orphan" Sample.org
                  {| assignee := Some "bob"; issueIdentifier := "ENG-9" |}
                  eq_refl eq_refl eq_refl)).
Defined.

(** ** The assignee setter *)

(** C3.  When the BranchSpec carries no assignee, and when the issue
    already has an assignee whatever the BranchSpec says, the setter returns
    the issue without looking up any user and without any update, and the
    tracker's issues, the assignment among them, stay as they were. *)
Theorem setter_first_assignment_wins lc issue name w :
  name = None ∨ is_Some (assignee_of w issue) →
  let set := maybeSetIssueAssignee lc issue name in
  (set w).1 = Ok issue ∧
  lookups_of (calls_during set w) = [] ∧
  updates_of (calls_during set w) = [] ∧
  issues (set w).2 = issues w.
Proof.
  intros Hv set. subst set.
  assert (Hrun := setter_run lc issue name w).
  destruct (negb (truthy name)) eqn:Hname.
  { rewrite Hrun. by rewrite calls_during_none by (by rewrite Hrun). }
  destruct Hv as [->|[u Hu]]; [done|].
  rewrite Hu in Hrun. rewrite Hrun.
  by erewrite calls_during_record by (by rewrite Hrun).
Qed.

Lemma setter_first_assignment_wins_witness :
  let set := maybeSetIssueAssignee Sample.lc Sample.eng7 (Some "bob") in
  (set Sample.world).1 = Ok Sample.eng7 ∧
  lookups_of (calls_during set Sample.world) = [] ∧
  updates_of (calls_during set Sample.world) = [] ∧
  issues (set Sample.world).2 = issues Sample.world.
Proof.
  apply (setter_first_assignment_wins Sample.lc Sample.eng7 (Some "bob") Sample.world).
  right. exists Sample.alice. reflexivity.
Defined.

(** C4, as the code has it.  For an unassigned issue and a non-empty
    assignee name: when exactly one user bears that display name the setter
    issues one update, which sets assigneeId to that user's id; when none or
    several do, it throws AssigneeResolutionFailed and issues no update. *)
Theorem setter_resolves_user lc issue name w :
  name ≠ "" →
  assignee_of w issue = None →
  let set := maybeSetIssueAssignee lc issue (Some name) in
  match users_named w name with
  | [user] =>
      let input := {| stateId := None; assigneeId := Some (user_id user) |} in
      (set w).1 = Ok issue ∧
      lookups_of (calls_during set w) = [name] ∧
      updates_of (calls_during set w) = [(issue_id issue, input)] ∧
      issues (set w).2 = alter (apply_update input) (issue_id issue) (issues w)
  | _ =>
      (set w).1 = Throw AssigneeResolutionFailed ∧
      updates_of (calls_during set w) = [] ∧
      issues (set w).2 = issues w
  end.
Proof.
  intros Hname Hu set. subst set.
  assert (Hrun := setter_run lc issue (Some name) w).
  destruct name as [|c name]; [done|]. cbn [truthy negb default from_option id] in Hrun.
  rewrite Hu in Hrun. cbv zeta in Hrun.
  destruct (users_named w (String c name)) as [|u [|u' us]];
    rewrite Hrun; cbv zeta;
    erewrite calls_during_record by (by rewrite Hrun); done.
Qed.

Lemma setter_resolves_user_witness :
  let set := maybeSetIssueAssignee Sample.lc Sample.eng42 (Some "bob") in
  let input := {| stateId := None; assigneeId := Some "u-bob" |} in
  (set Sample.world).1 = Ok Sample.eng42 ∧
  lookups_of (calls_during set Sample.world) = ["bob"] ∧
  updates_of (calls_during set Sample.world) = [("ENG-42", input)] ∧
  issues (set Sample.world).2 =
    alter (apply_update input) "ENG-42" (issues Sample.world).
Proof.
  apply (setter_resolves_user Sample.lc Sample.eng42 "bob" Sample.world);
    [discriminate | reflexivity].
Defined.

(** C4 as worded, for every assignee name, fails at the empty name:
    the issue is unassigned and no user is called the empty string, yet the
    setter returns the issue instead of throwing. *)
Lemma setter_empty_name_no_failure :
  assignee_of Sample.world Sample.eng42 = None ∧
  users_named Sample.world "" = [] ∧
  maybeSetIssueAssignee Sample.lc Sample.eng42 (Some "") Sample.world
  = (Ok Sample.eng42, Sample.world) ∧
  (maybeSetIssueAssignee Sample.lc Sample.eng42 (Some "") Sample.world).1
  ≠ Throw AssigneeResolutionFailed.
Proof.
  split_and!; [reflexivity | reflexivity | reflexivity |].
  intros H. vm_compute in H. discriminate H.
Qed.

(** ** The process *)

(** C8.  When the argument list does not hold exactly one command, [main]
    exits the process with code 1, a failure under either treatment of
    unhandled rejections, having done nothing else: no client has been
    constructed and no request sent. *)
Theorem main_demands_one_command {U : UpperCase} mode args w :
  List.length (positional args) ≠ 1 →
  main args w = (ProcessExit 1, w) ∧
  failed mode (main args w).1 = true ∧
  calls_during (main args) w = [].
Proof.
  intros Hn. unfold main, calls_during. case_decide; [|done].
  split_and!; [done|done|]. by rewrite drop_all.
Qed.

Lemma main_demands_one_command_witness :
  main {| positional := ["on-create-branch"; "deploy"];
          branchName := Some "bob/eng-42-refactor-login" |} Sample.world
  = (ProcessExit 1, Sample.world).
Proof.
  apply (main_demands_one_command ThrowOnUnhandled
           {| positional := ["on-create-branch"; "deploy"];
              branchName := Some "bob/eng-42-refactor-login" |} Sample.world).
  simpl. lia.
Defined.




(** The scenario of the specification, end to end: the issue goes to the
    draft state and is assigned to bob, in two updates, without error. *)
Example end_to_end :
  let run := main Sample.args Sample.world in
  run.1 = Completed ∧
  updates_of (calls_during (main Sample.args) Sample.world) =
    [("ENG-42", {| stateId := Some "st-ready"; assigneeId := None |});
     ("ENG-42", {| stateId := None; assigneeId := Some "u-bob" |})] ∧
  issues run.2 !! "ENG-42" =
    Some {| issue_id := "ENG-42"; issue_state := Some "st-ready";
            issue_team := Some "team-eng"; issue_assignee := Some "u-bob" |}.
Proof. by vm_compute. Qed.

(** * Further properties of the script *)

(** ** Upper-casing *)

Lemma upper_char_idem c : upper_char (upper_char c) = upper_char c.
Proof. by destruct c as [[] [] [] [] [] [] [] []]. Qed.

Lemma upper_char_hyphen d : upper_char d = "-"%char ↔ d = "-"%char.
Proof. destruct d as [[] [] [] [] [] [] [] []]; vm_compute; split; congruence. Qed.

Lemma upper_char_slash d : upper_char d = "/"%char ↔ d = "/"%char.
Proof. destruct d as [[] [] [] [] [] [] [] []]; vm_compute; split; congruence. Qed.

Lemma toUpperCaseAscii_idem s :
  toUpperCaseAscii (toUpperCaseAscii s) = toUpperCaseAscii s.
Proof. induction s as [|c s IH]; simpl; [done|]. by rewrite upper_char_idem, IH. Qed.

Lemma count_toUpperCaseAscii c s :
  (∀ d, upper_char d = c ↔ d = c) →
  count_char c (toUpperCaseAscii s) = count_char c s.
Proof.
  intros Hc. induction s as [|d s IH]; simpl; [done|]. rewrite IH.
  destruct (decide (d = c)) as [->|Hd].
  - by rewrite (proj2 (Hc c) eq_refl), decide_True.
  - rewrite decide_False; [done|]. by rewrite Hc.
Qed.

(** The ASCII upper-casing obeys the laws. *)
Global Instance asciiUpperCaseLaws : UpperCaseLaws.
Proof.
  split.
  - apply toUpperCaseAscii_idem.
  - intros s. apply count_toUpperCaseAscii, upper_char_hyphen.
  - intros s. apply count_toUpperCaseAscii, upper_char_slash.
Qed.

(** ** More on splitting *)

Lemma count_before_first_le c c' s :
  count_char c' (before_first c s) ≤ count_char c' s.
Proof.
  induction s as [|d s IH]; simpl; [done|].
  case_decide; simpl; lia.
Qed.

Lemma count_after_first_le c c' s :
  count_char c' (after_first c s) ≤ count_char c' s.
Proof.
  induction s as [|d s IH]; simpl; [done|].
  case_decide; simpl; lia.
Qed.

(** A successful parse, read backwards. *)
Lemma parse_ok_inv {U : UpperCase} org branch spec :
  collectAssigneeIssueIdentifierFromBranchName org branch = Ok spec →
  gitBranchFormat org = supportedFormat ∧
  count_char "/" branch = 1 ∧
  count_char "-" (after_first "/" branch) ≠ 0 ∧
  spec = {| assignee := Some (before_first "/" branch);
            issueIdentifier :=
              toUpperCase (before_first "-" (after_first "/" branch))
              +:+ "-"
              +:+ before_first "-" (after_first "-" (after_first "/" branch)) |}.
Proof.
  intros Hp.
  destruct (decide (gitBranchFormat org = supportedFormat)) as [Hf|Hf];
    [|by rewrite parse_unsupported in Hp].
  destruct (decide (count_char "/" branch = 1)) as [Hs|Hs];
    [|by rewrite parse_slashes in Hp].
  destruct (decide (count_char "-" (after_first "/" branch) = 0)) as [Hh|Hh];
    [by rewrite parse_no_hyphen in Hp|].
  rewrite parse_ok in Hp by done. by injection Hp as <-.
Qed.

(** ** The parsed BranchSpec *)

(** X1.  Whatever branch parses, the issue identifier returned holds exactly
    one '-' (so it is never empty), holds no '/', and what stands before its
    '-' is already in upper case; the assignee returned holds no '/'. *)
Theorem parse_identifier_shape {U : UpperCase} {UL : UpperCaseLaws} org branch spec :
  collectAssigneeIssueIdentifierFromBranchName org branch = Ok spec →
  let id := issueIdentifier spec in
  count_char "-" id = 1 ∧
  count_char "/" id = 0 ∧
  toUpperCase (before_first "-" id) = before_first "-" id ∧
  ∃ user, assignee spec = Some user ∧ count_char "/" user = 0.
Proof.
  intros (Hf & Hs & Hh & ->)%parse_ok_inv id. subst id. cbn [issueIdentifier assignee].
  set (seg := after_first "/" branch).
  assert (count_char "/" seg = 0) as Hseg by by apply count_after_first.
  set (p0 := before_first "-" seg). set (p1 := before_first "-" (after_first "-" seg)).
  assert (count_char "-" (toUpperCase p0) = 0) as H0.
  { rewrite toUpperCase_hyphens. apply count_before_first. }
  assert (count_char "/" p0 = 0) as H0s.
  { pose proof (count_before_first_le "-" "/" seg). unfold p0. lia. }
  assert (count_char "/" p1 = 0) as H1s.
  { pose proof (count_before_first_le "-" "/" (after_first "-" seg)).
    pose proof (count_after_first_le "-" "/" seg). unfold p1. lia. }
  change (toUpperCase p0 +:+ "-" +:+ p1) with (toUpperCase p0 +:+ String "-" p1).
  split_and!.
  - rewrite count_app. simpl. rewrite H0. unfold p1. rewrite count_before_first. done.
  - rewrite count_app. simpl.
    rewrite toUpperCase_slashes. lia.
  - rewrite before_first_app by done. apply toUpperCase_idem.
  - eexists. split; [done|]. apply count_before_first.
Qed.

Lemma parse_identifier_shape_witness :
  let id := "-" in
  collectAssigneeIssueIdentifierFromBranchName Sample.org "user/-"
  = Ok {| assignee := Some "user"; issueIdentifier := id |} ∧
  count_char "-" id = 1.
Proof.
  intros id.
  assert (collectAssigneeIssueIdentifierFromBranchName Sample.org "user/-"
          = Ok {| assignee := Some "user"; issueIdentifier := id |}) as Hp
    by reflexivity.
  split; [exact Hp|].
  exact (proj1 (parse_identifier_shape Sample.org "user/-" _ Hp)).
Defined.

(** X2.  A branch that parses has the shape user/p0-p1 followed by nothing
    or by a '-' and a title, with no '/' in user, p0, p1 or the title and no
    '-' in p0 or p1; the BranchSpec is made of user, p0 and p1. *)
Theorem parse_branch_shape {U : UpperCase} org branch spec :
  collectAssigneeIssueIdentifierFromBranchName org branch = Ok spec →
  ∃ user p0 p1 rest,
    branch = user +:+ "/" +:+ p0 +:+ "-" +:+ p1 +:+ rest ∧
    spec = {| assignee := Some user;
              issueIdentifier := toUpperCase p0 +:+ "-" +:+ p1 |} ∧
    (rest = "" ∨ ∃ title, rest = String "-" title) ∧
    count_char "/" user = 0 ∧
    count_char "/" (p0 +:+ p1 +:+ rest) = 0 ∧
    count_char "-" p0 = 0 ∧ count_char "-" p1 = 0.
Proof.
  intros (Hf & Hs & Hh & ->)%parse_ok_inv.
  set (seg := after_first "/" branch) in *.
  set (r := after_first "-" seg).
  assert (count_char "/" seg = 0) as Hseg by by apply count_after_first.
  assert (branch = before_first "/" branch +:+ String "/" seg) as Hb
    by (apply before_after_first; lia).
  assert (seg = before_first "-" seg +:+ String "-" r) as Hsg
    by by apply before_after_first.
  exists (before_first "/" branch), (before_first "-" seg), (before_first "-" r).
  destruct (decide (count_char "-" r = 0)) as [Hr|Hr].
  - exists "". rewrite (before_first_absent _ _ Hr).
    assert (r +:+ "" = r) as Hnil.
    { clear. induction r as [|c r IH]; [done|]. by rewrite append_cons, IH. }
    change (?a +:+ "/" +:+ ?b +:+ "-" +:+ r +:+ "")
      with (a +:+ String "/" (b +:+ String "-" (r +:+ ""))).
    rewrite Hnil, <- Hsg, <- Hb.
    split_and!; [done|done|by left|apply count_before_first| |
                 apply count_before_first|done].
    pose proof (count_before_first_le "-" "/" seg).
    pose proof (count_after_first_le "-" "/" seg).
    rewrite count_app. fold r in H0. lia.
  - exists (String "-" (after_first "-" r)).
    change (?a +:+ "/" +:+ ?b +:+ "-" +:+ ?c +:+ String "-" ?d)
      with (a +:+ String "/" (b +:+ String "-" (c +:+ String "-" d))).
    rewrite <- (before_after_first _ r Hr), <- Hsg, <- Hb.
    split_and!; [done|done|right; eauto|apply count_before_first| |
                 apply count_before_first|apply count_before_first].
    pose proof (count_before_first_le "-" "/" seg).
    pose proof (count_after_first_le "-" "/" seg).
    pose proof (count_before_first_le "-" "/" r).
    pose proof (count_after_first_le "-" "/" r).
    fold r in H0. rewrite !count_app. simpl. lia.
Qed.

Lemma parse_branch_shape_witness :
  ∃ user p0 p1 rest,
    "bob/eng-42-refactor-login" = user +:+ "/" +:+ p0 +:+ "-" +:+ p1 +:+ rest ∧
    {| assignee := Some "bob"; issueIdentifier := "ENG-42" |}
    = {| assignee := Some user;
         issueIdentifier := toUpperCase p0 +:+ "-" +:+ p1 |} ∧
    (rest = "" ∨ ∃ title, rest = String "-" title) ∧
    count_char "/" user = 0 ∧
    count_char "/" (p0 +:+ p1 +:+ rest) = 0 ∧
    count_char "-" p0 = 0 ∧ count_char "-" p1 = 0.
Proof.
  apply (parse_branch_shape Sample.org "bob/eng-42-refactor-login").
  reflexivity.
Defined.

(** The parse of user/first-tail, for a [first] without '-', in terms of
    [first] and [tail]. *)
Lemma parse_user_first_tail {U : UpperCase} org user first tail :
  gitBranchFormat org = supportedFormat →
  count_char "-" first = 0 →
  collectAssigneeIssueIdentifierFromBranchName org
    (user +:+ String "/" (first +:+ String "-" tail)) =
  if decide (count_char "/" user + count_char "/" first + count_char "/" tail = 0)
  then Ok {| assignee := Some user;
             issueIdentifier := toUpperCase first +:+ "-" +:+ before_first "-" tail |}
  else Throw IncompatibleBranchFormat.
Proof.
  intros Hf H1.
  assert (count_char "/" (user +:+ String "/" (first +:+ String "-" tail))
          = 1 + (count_char "/" user + count_char "/" first + count_char "/" tail))
    as Hcount.
  { rewrite count_app. simpl. rewrite count_app. simpl. lia. }
  case_decide as Hz.
  - rewrite parse_ok; [|done|lia|].
    + rewrite before_first_app, after_first_app by lia.
      by rewrite before_first_app, after_first_app by done.
    + rewrite after_first_app by lia. rewrite count_app. simpl. lia.
  - apply parse_slashes. lia.
Qed.

(** X3.  The case of the letters before the first '-' does not matter:
    writing that part in upper case parses to the same result, success or
    failure alike. *)
Theorem parse_prefix_case_insensitive {U : UpperCase} {UL : UpperCaseLaws} org user prefix tail :
  count_char "-" prefix = 0 →
  collectAssigneeIssueIdentifierFromBranchName org
    (user +:+ "/" +:+ toUpperCase prefix +:+ "-" +:+ tail) =
  collectAssigneeIssueIdentifierFromBranchName org
    (user +:+ "/" +:+ prefix +:+ "-" +:+ tail).
Proof.
  intros Hp.
  change (?a +:+ "/" +:+ ?b +:+ "-" +:+ ?c)
    with (a +:+ String "/" (b +:+ String "-" c)).
  destruct (decide (gitBranchFormat org = supportedFormat)) as [Hf|Hf];
    [|by rewrite !parse_unsupported].
  rewrite !parse_user_first_tail; [|done..|].
  - by rewrite toUpperCase_idem, toUpperCase_slashes.
  - by rewrite toUpperCase_hyphens.
Qed.

Lemma parse_prefix_case_insensitive_witness :
  collectAssigneeIssueIdentifierFromBranchName Sample.org "bob/ENG-42-login" =
  collectAssigneeIssueIdentifierFromBranchName Sample.org "bob/eng-42-login".
Proof.
  exact (parse_prefix_case_insensitive Sample.org "bob" "eng" "42-login" eq_refl).
Defined.

(** X4.  What follows the second '-'-separated part does not matter either,
    as long as it brings no '/': the branch parses as it does without it. *)
Theorem parse_title_irrelevant {U : UpperCase} org user prefix number title :
  count_char "-" prefix = 0 →
  count_char "-" number = 0 →
  count_char "/" title = 0 →
  collectAssigneeIssueIdentifierFromBranchName org
    (user +:+ "/" +:+ prefix +:+ "-" +:+ number +:+ "-" +:+ title) =
  collectAssigneeIssueIdentifierFromBranchName org
    (user +:+ "/" +:+ prefix +:+ "-" +:+ number).
Proof.
  intros Hp Hn Ht.
  change (?a +:+ "/" +:+ ?b +:+ "-" +:+ ?c +:+ "-" +:+ ?d)
    with (a +:+ String "/" (b +:+ String "-" (c +:+ String "-" d))).
  change (?a +:+ "/" +:+ ?b +:+ "-" +:+ ?c)
    with (a +:+ String "/" (b +:+ String "-" c)).
  destruct (decide (gitBranchFormat org = supportedFormat)) as [Hf|Hf];
    [|by rewrite !parse_unsupported].
  rewrite !parse_user_first_tail by done.
  rewrite before_first_app, (before_first_absent _ _ Hn) by done.
  rewrite count_app. simpl. rewrite Ht, Nat.add_0_r. done.
Qed.

Lemma parse_title_irrelevant_witness :
  collectAssigneeIssueIdentifierFromBranchName Sample.org "user/AB-123-4-fix" =
  collectAssigneeIssueIdentifierFromBranchName Sample.org "user/AB-123".
Proof.
  exact (parse_title_irrelevant Sample.org "user" "AB" "123" "4-fix"
           eq_refl eq_refl eq_refl).
Defined.

(** ** What a run leaves alone *)

Lemma keeps_structure_refl w : keeps_structure w w.
Proof. by repeat split. Qed.

Lemma keeps_structure_trans w1 w2 w3 :
  keeps_structure w1 w2 → keeps_structure w2 w3 → keeps_structure w1 w3.
Proof.
  intros (?&?&?&?&?&?&H12) (?&?&?&?&?&?&H23).
  split_and!; try congruence.
  intros k. destruct (H12 k), (H23 k). split; congruence.
Qed.

Lemma keeps_structure_record cs w : keeps_structure w (record_calls cs w).
Proof.
  revert w. induction cs as [|c cs IH]; intros w; [apply keeps_structure_refl|].
  eapply keeps_structure_trans; [|apply (IH (record_call c w))].
  by repeat split.
Qed.

Lemma keeps_structure_update input id cs w :
  keeps_structure w
    (set_issues (alter (apply_update input) id (issues w)) (record_calls cs w)).
Proof.
  destruct (keeps_structure_record cs w) as (?&?&?&?&?&?&_).
  split_and!; try done.
  intros k. cbn [issues set_issues]. rewrite lookup_alter.
  case_decide; [subst k|done].
  by destruct (issues w !! id).
Qed.

(** The world a run of the advancer, and of the setter, ends in: the calls
    recorded, and at most one partial update applied to the issue at hand. *)
Lemma advancer_world lc ident w :
  ∃ cs,
    (maybeUpdateIssueToTeamDraftState lc ident w).2 = record_calls cs w ∨
    ∃ issue sid,
      issues w !! ident = Some issue ∧
      (maybeUpdateIssueToTeamDraftState lc ident w).2 =
      set_issues
        (alter (apply_update {| stateId := Some sid; assigneeId := None |})
           (issue_id issue) (issues w))
        (record_calls cs w).
Proof.
  rewrite advancer_run.
  destruct (issues w !! ident) as [issue|]; cbv zeta; [|eauto].
  destruct (team_of w issue) as [team|]; [|eauto].
  destruct (draft_state_of w team) as [draft|], (state_of w issue) as [st|]; eauto.
  destruct (includes _ _); eauto 10.
Qed.

Lemma setter_world lc issue name w :
  ∃ cs,
    (maybeSetIssueAssignee lc issue name w).2 = record_calls cs w ∨
    ∃ uid,
      (maybeSetIssueAssignee lc issue name w).2 =
      set_issues
        (alter (apply_update {| stateId := None; assigneeId := Some uid |})
           (issue_id issue) (issues w))
        (record_calls cs w).
Proof.
  rewrite setter_run.
  destruct (negb (truthy name)); [by exists []; left|].
  destruct (assignee_of w issue); cbv zeta; [eauto|].
  destruct (users_named w _) as [|u [|u' us]]; eauto.
Qed.

(** X7.  The advancer changes the state of the issue it fetched and nothing
    else: every issue keeps its assignee, its team and its id, no issue
    appears or disappears, a record that differs afterwards is the fetched
    issue's, and teams, workflow states and users are untouched.  This holds
    for every run, failed ones included. *)
Theorem advancer_changes_state_only lc ident w :
  let w' := (maybeUpdateIssueToTeamDraftState lc ident w).2 in
  keeps_structure w w' ∧
  (∀ k, issue_assignee <$> issues w' !! k = issue_assignee <$> issues w !! k) ∧
  (∀ k, issues w' !! k ≠ issues w !! k →
        ∃ issue, issues w !! ident = Some issue ∧ k = issue_id issue).
Proof.
  intros w'. subst w'.
  destruct (advancer_world lc ident w) as [cs [->|(issue & sid & Hi & ->)]].
  - split_and!; [apply keeps_structure_record| |];
      intros k; rewrite issues_record_calls; done.
  - split_and!; [apply keeps_structure_update| |];
      intros k; cbn [issues set_issues]; rewrite lookup_alter;
      (case_decide; [subst k|done]).
    + by destruct (issues w !! issue_id issue).
    + eauto.
Qed.

Lemma advancer_changes_state_only_witness :
  let w' := (maybeUpdateIssueToTeamDraftState Sample.lc "ENG-42" Sample.world).2 in
  issues w' !! "ENG-42" ≠ issues Sample.world !! "ENG-42" ∧
  ∃ issue, issues Sample.world !! "ENG-42" = Some issue ∧ "ENG-42" = issue_id issue.
Proof.
  intros w'.
  assert (issues w' !! "ENG-42" ≠ issues Sample.world !! "ENG-42") as Hne.
  { intros H. vm_compute in H. discriminate H. }
  split; [exact Hne|].
  exact (proj2 (proj2 (advancer_changes_state_only Sample.lc "ENG-42" Sample.world))
           "ENG-42" Hne).
Defined.

(** X8.  The setter changes the assignee of the issue it is given and
    nothing else: every issue keeps its state, its team and its id, a record
    that differs afterwards is filed under that issue's id, and teams,
    workflow states and users are untouched. *)
Theorem setter_changes_assignee_only lc issue name w :
  let w' := (maybeSetIssueAssignee lc issue name w).2 in
  keeps_structure w w' ∧
  (∀ k, issue_state <$> issues w' !! k = issue_state <$> issues w !! k) ∧
  (∀ k, issues w' !! k ≠ issues w !! k → k = issue_id issue).
Proof.
  intros w'. subst w'.
  destruct (setter_world lc issue name w) as [cs [->|(uid & ->)]].
  - split_and!; [apply keeps_structure_record| |];
      intros k; rewrite issues_record_calls; done.
  - split_and!; [apply keeps_structure_update| |];
      intros k; cbn [issues set_issues]; rewrite lookup_alter;
      (case_decide; [subst k|done]).
    + by destruct (issues w !! issue_id issue).
    + done.
Qed.

Lemma setter_changes_assignee_only_witness :
  let w' := (maybeSetIssueAssignee Sample.lc Sample.eng42 (Some "bob") Sample.world).2 in
  issues w' !! "ENG-42" ≠ issues Sample.world !! "ENG-42" ∧
  "ENG-42" = issue_id Sample.eng42.
Proof.
  intros w'.
  assert (issues w' !! "ENG-42" ≠ issues Sample.world !! "ENG-42") as Hne.
  { intros H. vm_compute in H. discriminate H. }
  split; [exact Hne|].
  exact (proj2 (proj2 (setter_changes_assignee_only
                         Sample.lc Sample.eng42 (Some "bob") Sample.world))
           "ENG-42" Hne).
Defined.

Lemma advancer_structure lc ident w :
  keeps_structure w (maybeUpdateIssueToTeamDraftState lc ident w).2.
Proof.
  destruct (advancer_world lc ident w) as [cs [->|(issue & sid & _ & ->)]];
    [apply keeps_structure_record|apply keeps_structure_update].
Qed.

Lemma setter_structure lc issue name w :
  keeps_structure w (maybeSetIssueAssignee lc issue name w).2.
Proof.
  destruct (setter_world lc issue name w) as [cs [->|(uid & ->)]];
    [apply keeps_structure_record|apply keeps_structure_update].
Qed.

Lemma onCreateBranch_structure {U : UpperCase} lc branch w :
  keeps_structure w (onCreateBranch lc branch w).2.
Proof.
  rewrite onCreateBranch_run. cbv zeta.
  pose proof (keeps_structure_record [OrganizationQuery] w) as H1.
  destruct (organization w) as [org|]; [|done].
  destruct (collectAssigneeIssueIdentifierFromBranchName org branch) as [spec|e];
    [|done].
  pose proof (advancer_structure lc (issueIdentifier spec)
                (record_calls [OrganizationQuery] w)) as H2.
  destruct (maybeUpdateIssueToTeamDraftState _ _ _) as [[issue|e] w2];
    [|by eapply keeps_structure_trans].
  eapply keeps_structure_trans; [by eapply keeps_structure_trans|].
  apply setter_structure.
Qed.

(** X9.  Whatever its arguments and however it ends, [main] leaves the
    environment, the organization, the viewer, the teams, the workflow
    states and the users as they were, creates and deletes no issue, and
    changes no issue's id or team. *)
Theorem main_keeps_structure {U : UpperCase} args w :
  keeps_structure w (main args w).2.
Proof.
  destruct args as [pos given].
  destruct pos as [|command [|second rest]];
    [apply keeps_structure_refl| |apply keeps_structure_refl].
  rewrite main_run_any.
  destruct (truthy (env_LINEAR_API_KEY w)); [|apply keeps_structure_refl].
  cbv zeta.
  set (w1 := record_calls [ClientConstructed (clientOf w); OrganizationQuery] w).
  pose proof (keeps_structure_record
                [ClientConstructed (clientOf w); OrganizationQuery] w) as H1.
  fold w1 in H1.
  destruct (organization w) as [org|]; [|done].
  case_decide; [|done].
  destruct given as [branch|].
  - pose proof (onCreateBranch_structure (clientOf w) branch w1) as H2.
    destruct (onCreateBranch _ _ _) as [[] w2]; by eapply keeps_structure_trans.
  - eapply keeps_structure_trans; [exact H1|]. apply keeps_structure_record.
Qed.

Lemma main_keeps_structure_witness :
  keeps_structure Sample.world (main Sample.args Sample.world).2.
Proof. exact (main_keeps_structure Sample.args Sample.world). Defined.

(** ** The client and the user lookup *)

(** X5.  [newLinearClient] sends no request.  When LINEAR_API_KEY is unset
    or empty it throws the constructor's error, and [main], given one
    command, then ends on that error before any call, the tracker
    untouched; when the variable holds a non-empty string the client is
    constructed with exactly that key. *)
Theorem client_api_key {U : UpperCase} w :
  (env_LINEAR_API_KEY w = None ∨ env_LINEAR_API_KEY w = Some "" →
   newLinearClient w = (Throw missingApiKey, w) ∧
   ∀ command given,
     main {| positional := [command]; branchName := given |} w =
     (UnhandledRejection missingApiKey, w)) ∧
  (∀ key, env_LINEAR_API_KEY w = Some key → key ≠ "" →
          newLinearClient w =
          (Ok {| apiKey := Some key |},
           record_calls [ClientConstructed {| apiKey := Some key |}] w)).
Proof.
  split.
  - intros Hkey.
    assert (truthy (env_LINEAR_API_KEY w) = false) as Hfalse
      by (by destruct Hkey as [-> | ->]).
    split; [by rewrite newLinearClient_run, Hfalse|].
    intros command given. by rewrite main_run_any, Hfalse.
  - intros key Hkey Hne. rewrite newLinearClient_run. unfold clientOf.
    rewrite Hkey. by destruct key.
Qed.

Lemma client_api_key_witness :
  main Sample.args Sample.keyless = (UnhandledRejection missingApiKey, Sample.keyless).
Proof.
  exact (proj2 (proj1 (client_api_key Sample.keyless) (or_introl eq_refl))
           "on-create-branch" (Some "bob/eng-42-refactor-login")).
Defined.

(** X6.  [getUserFromDisplayName] never throws, sends one users query and
    changes nothing.  It answers a user exactly when that user is the only
    one bearing the display name, so the user it answers is a user of the
    tracker with precisely that display name; it answers null exactly when
    the number of such users is not one. *)
Theorem user_lookup_sound lc name w :
  let r := getUserFromDisplayName lc name w in
  r.2 = record_calls [UsersQuery name] w ∧
  (∃ answer, r.1 = Ok answer) ∧
  (∀ u, r.1 = Ok (Some u) ↔ users_named w name = [u]) ∧
  (∀ u, r.1 = Ok (Some u) → user_displayName u = name ∧ u ∈ users w) ∧
  (r.1 = Ok None ↔ List.length (users_named w name) ≠ 1).
Proof.
  intros r.
  assert (r = (Ok (match users_named w name with [u] => Some u | _ => None end),
               record_calls [UsersQuery name] w)) as ->.
  { subst r. unfold getUserFromDisplayName, Sdk.users.
    cbv [mbind M_bind mret M_ret request read].
    change (users_named (record_call _ w) name) with (users_named w name).
    by destruct (users_named w name) as [|u [|u' us]]. }
  cbn [fst snd].
  assert (∀ u, users_named w name = [u] → user_displayName u = name ∧ u ∈ users w)
    as Hsound.
  { intros u Hu.
    assert (u ∈ users_named w name) as Hin by (rewrite Hu; apply list_elem_of_here).
    unfold users_named in Hin. apply list_elem_of_filter in Hin. tauto. }
  split_and!; [done|eauto| | |].
  - intros u. destruct (users_named w name) as [|u1 [|u2 us]]; split; congruence.
  - intros u Hu. apply Hsound.
    destruct (users_named w name) as [|u1 [|u2 us]]; congruence.
  - destruct (users_named w name) as [|u1 [|u2 us]]; simpl; split;
      try done; try lia.
Qed.

Lemma user_lookup_sound_witness :
  user_displayName Sample.bob = "bob" ∧ Sample.bob ∈ users Sample.world.
Proof.
  exact (proj1 (proj2 (proj2 (proj2
    (user_lookup_sound Sample.lc "bob" Sample.world)))) Sample.bob eq_refl).
Defined.

(** ** Updates of a run *)

Lemma updates_of_app t1 t2 : updates_of (t1 ++ t2) = updates_of t1 ++ updates_of t2.
Proof.
  induction t1 as [|c t1 IH]; [done|].
  destruct c; simpl; by rewrite ?IH.
Qed.

Lemma lookups_of_app t1 t2 : lookups_of (t1 ++ t2) = lookups_of t1 ++ lookups_of t2.
Proof.
  induction t1 as [|c t1 IH]; [done|].
  destruct c; simpl; by rewrite ?IH.
Qed.

(** The calls of the advancer: of its stage, no user lookup, and at most one
    update, which sets the state of the fetched issue. *)
Lemma advancer_trace lc ident w :
  ∃ t, trace (maybeUpdateIssueToTeamDraftState lc ident w).2 = trace w ++ t ∧
       Forall (λ c, stage_of c = 3) t ∧
       (updates_of t = [] ∨
        ∃ issue sid,
          issues w !! ident = Some issue ∧
          updates_of t =
            [(issue_id issue, {| stateId := Some sid; assigneeId := None |})]).
Proof.
  rewrite advancer_run.
  destruct (issues w !! ident) as [issue|]; cbv zeta;
    [destruct (team_of w issue) as [team|];
     [destruct (draft_state_of w team), (state_of w issue);
      [destruct (includes _ _)|..]|]|];
    cbn [snd trace set_issues]; rewrite trace_record_calls;
    eexists; (split; [reflexivity|]); (split; [repeat constructor|]);
    cbn [app updates_of]; eauto.
Qed.

Lemma setter_trace lc issue name w :
  ∃ t, trace (maybeSetIssueAssignee lc issue name w).2 = trace w ++ t ∧
       Forall (λ c, stage_of c = 4) t ∧
       (updates_of t = [] ∨
        ∃ uid,
          updates_of t =
            [(issue_id issue, {| stateId := None; assigneeId := Some uid |})]).
Proof.
  rewrite setter_run.
  destruct (negb (truthy name)).
  { exists []. rewrite app_nil_r. eauto. }
  destruct (assignee_of w issue); cbv zeta;
    [|destruct (users_named w _) as [|u [|u' us]]];
    cbn [snd trace set_issues]; rewrite trace_record_calls;
    eexists; (split; [reflexivity|]); (split; [repeat constructor|]);
    cbn [app updates_of]; eauto.
Qed.

(** What the advancer returns is the record it fetched. *)
Lemma advancer_returns_fetched lc ident w issue :
  (maybeUpdateIssueToTeamDraftState lc ident w).1 = Ok issue →
  issues w !! ident = Some issue.
Proof.
  rewrite advancer_run.
  destruct (issues w !! ident) as [i|]; cbv zeta; [|done].
  destruct (team_of w i) as [team|]; [|done].
  destruct (draft_state_of w team), (state_of w i); try done.
  destruct (includes _ _); cbn [fst]; congruence.
Qed.

(** X12.  A run of [onCreateBranch] issues at most two updates: at most one
    that sets only the state, then at most one that sets only the assignee.
    Each of them is addressed to the issue the branch names, as the tracker
    had it when the run began. *)
Theorem at_most_two_updates {U : UpperCase} lc branch w :
  ∃ states assigns,
    updates_of (calls_during (onCreateBranch lc branch) w) = states ++ assigns ∧
    List.length states ≤ 1 ∧ List.length assigns ≤ 1 ∧
    Forall (λ u, is_Some (stateId u.2) ∧ assigneeId u.2 = None) states ∧
    Forall (λ u, stateId u.2 = None ∧ is_Some (assigneeId u.2)) assigns ∧
    Forall (λ u, ∃ org spec issue,
                organization w = Some org ∧
                collectAssigneeIssueIdentifierFromBranchName org branch = Ok spec ∧
                issues w !! issueIdentifier spec = Some issue ∧
                u.1 = issue_id issue) (states ++ assigns).
Proof.
  assert (Hrun := onCreateBranch_run lc branch w). cbv zeta in Hrun.
  set (w1 := record_calls [OrganizationQuery] w) in *.
  assert (trace w1 = trace w ++ [OrganizationQuery]) as Hw1
    by apply trace_record_calls.
  destruct (organization w) as [org|] eqn:Horg.
  2:{ exists [], []. erewrite calls_during_app by (by rewrite Hrun).
      split_and!; [done|simpl; lia|simpl; lia|constructor..]. }
  destruct (collectAssigneeIssueIdentifierFromBranchName org branch)
    as [spec|e] eqn:Hp.
  2:{ exists [], []. erewrite calls_during_app by (by rewrite Hrun).
      split_and!; [done|simpl; lia|simpl; lia|constructor..]. }
  destruct (advancer_trace lc (issueIdentifier spec) w1) as (t3 & Ht3 & _ & Hu3).
  pose proof (advancer_returns_fetched lc (issueIdentifier spec) w1) as Hfetched.
  destruct (maybeUpdateIssueToTeamDraftState lc (issueIdentifier spec) w1)
    as [[issue|e] w2].
  2:{ cbn [snd] in Ht3. rewrite Hw1, <- app_assoc in Ht3.
      erewrite calls_during_app by (rewrite Hrun; exact Ht3).
      cbn [app updates_of].
      destruct Hu3 as [->|(i & sid & Hi & ->)].
      - exists [], []. split_and!; [done|simpl; lia|simpl; lia|constructor..].
      - eexists [_], []. split_and!; [done|simpl; lia|simpl; lia| | |];
          repeat constructor; eauto 10. }
  specialize (Hfetched issue eq_refl). cbn [snd] in Ht3.
  destruct (setter_trace lc issue (assignee spec) w2) as (t4 & Ht4 & _ & Hu4).
  rewrite Ht3, Hw1, <- !app_assoc in Ht4.
  erewrite calls_during_app by (rewrite Hrun; exact Ht4).
  cbn [app updates_of]. rewrite updates_of_app.
  assert (∀ i, issues w1 !! issueIdentifier spec = Some i → i = issue) as Hsame
    by (intros i Hi; congruence).
  exists (updates_of t3), (updates_of t4).
  destruct Hu3 as [->|(i & sid & Hi & ->)], Hu4 as [->|(uid & ->)];
    try (apply Hsame in Hi; subst i);
    (split_and!; [done|simpl; lia|simpl; lia|..]);
    repeat constructor; cbn [fst snd stateId assigneeId]; eauto 10.
Qed.

Lemma at_most_two_updates_witness :
  ∃ states assigns,
    updates_of (calls_during (onCreateBranch Sample.lc "bob/eng-42-refactor-login")
                  Sample.world) = states ++ assigns ∧
    List.length states ≤ 1 ∧ List.length assigns ≤ 1.
Proof.
  destruct (at_most_two_updates Sample.lc "bob/eng-42-refactor-login" Sample.world)
    as (states & assigns & H & Hs & Ha & _).
  exists states, assigns. exact (conj H (conj Hs Ha)).
Defined.

(** ** Runs that change nothing *)

Lemma state_of_record_calls cs w i : state_of (record_calls cs w) i = state_of w i.
Proof.
  destruct (keeps_structure_record cs w) as (_&_&_&_&H&_). unfold state_of. by rewrite H.
Qed.

Lemma team_of_record_calls cs w i : team_of (record_calls cs w) i = team_of w i.
Proof.
  destruct (keeps_structure_record cs w) as (_&_&_&H&_). unfold team_of. by rewrite H.
Qed.

Lemma draft_state_of_record_calls cs w t :
  draft_state_of (record_calls cs w) t = draft_state_of w t.
Proof.
  destruct (keeps_structure_record cs w) as (_&_&_&_&H&_).
  unfold draft_state_of. by rewrite H.
Qed.

Lemma assignee_of_record_calls cs w i :
  assignee_of (record_calls cs w) i = assignee_of w i.
Proof.
  destruct (keeps_structure_record cs w) as (_&_&_&_&_&H&_).
  unfold assignee_of. by rewrite H.
Qed.

(** The setter does nothing but, at most, read the assignee when the name
    is null or empty or the issue is assigned. *)
Lemma setter_skips lc issue name w :
  truthy name = false ∨ is_Some (assignee_of w issue) →
  ∃ cs, maybeSetIssueAssignee lc issue name w = (Ok issue, record_calls cs w) ∧
        updates_of cs = [] ∧ lookups_of cs = [].
Proof.
  intros Hv. rewrite setter_run.
  destruct (truthy name) eqn:Hname; simpl; [|by exists []].
  destruct Hv as [|[u ->]]; [done|]. by eexists [_].
Qed.

(** The orchestrator on an issue that is past unstarted and needs no
    assignment. *)
Lemma run_on_settled_issue {U : UpperCase} lc branch w org spec issue st team draft :
  organization w = Some org →
  collectAssigneeIssueIdentifierFromBranchName org branch = Ok spec →
  issues w !! issueIdentifier spec = Some issue →
  state_of w issue = Some st →
  team_of w issue = Some team →
  draft_state_of w team = Some draft →
  ws_type st ∉ ["triage"; "backlog"; "unstarted"] →
  truthy (assignee spec) = false ∨ is_Some (assignee_of w issue) →
  let run := onCreateBranch lc branch in
  (run w).1 = Ok issue ∧
  updates_of (calls_during run w) = [] ∧
  lookups_of (calls_during run w) = [] ∧
  issues (run w).2 = issues w.
Proof.
  intros Horg Hp Hi Hs Ht Hd Hout Hv run. subst run.
  assert (Hrun := onCreateBranch_run lc branch w). cbv zeta in Hrun.
  rewrite Horg, Hp in Hrun.
  set (w1 := record_calls [OrganizationQuery] w) in *.
  assert (Hadv := advancer_run lc (issueIdentifier spec) w1).
  unfold w1 in Hadv at 2 3 4 5.
  rewrite issues_record_calls, Hi in Hadv. cbv zeta in Hadv.
  rewrite team_of_record_calls, Ht, draft_state_of_record_calls, Hd,
    state_of_record_calls, Hs in Hadv.
  destruct (includes _ _) eqn:E in Hadv; [by apply includes_spec in E|].
  rewrite Hadv in Hrun.
  match type of Hrun with
  | _ = maybeSetIssueAssignee _ _ _ ?w => set (w2 := w) in *
  end.
  destruct (setter_skips lc issue (assignee spec) w2) as (cs & Hset & Hu & Hl).
  { unfold w2, w1. by rewrite !assignee_of_record_calls. }
  rewrite Hset in Hrun.
  assert (trace (onCreateBranch lc branch w).2 =
          trace w ++ [OrganizationQuery] ++
            ([IssueQuery (issueIdentifier spec); IssueStateQuery (issue_id issue);
              IssueTeamQuery (issue_id issue); TeamDraftStateQuery (team_id team)]
             ++ cs)) as Htrace.
  { rewrite Hrun. cbn [snd]. unfold w2, w1.
    rewrite !trace_record_calls. by rewrite <- !app_assoc. }
  rewrite (calls_during_app _ _ _ Htrace), Hrun.
  rewrite !updates_of_app, !lookups_of_app, Hu, Hl.
  split_and!; [done..|].
  cbn [snd]. unfold w2, w1. by rewrite !issues_record_calls.
Qed.



(** ** Running the orchestrator again *)

Lemma head_filter_user_id (u : User) (l : list User) :
  u ∈ l → is_Some (head (filter (λ v, user_id v = user_id u) l)).
Proof.
  intros Hin.
  assert (u ∈ filter (λ v, user_id v = user_id u) l) as Hf
    by by apply list_elem_of_filter.
  destruct (filter _ l); [by apply elem_of_nil in Hf|by eexists].
Qed.

(** After a successful run of the advancer the issue is, in the tracker,
    past unstarted, with the assignee it had. *)
Lemma advancer_post lc ident w issue st team draft :
  issues w !! ident = Some issue →
  issue_id issue = ident →
  state_of w issue = Some st →
  team_of w issue = Some team →
  draft_state_of w team = Some draft →
  workflowStates w !! ws_id draft = Some draft →
  ws_type draft ∉ ["triage"; "backlog"; "unstarted"] →
  let r := maybeUpdateIssueToTeamDraftState lc ident w in
  r.1 = Ok issue ∧
  ∃ issue' st',
    issues r.2 !! ident = Some issue' ∧
    issue_assignee issue' = issue_assignee issue ∧
    issue_state issue' ≫= (λ sid, workflowStates w !! sid) = Some st' ∧
    ws_type st' ∉ ["triage"; "backlog"; "unstarted"].
Proof.
  intros Hi Hid Hs Ht Hd Hdraft Hout r. subst r.
  assert (Hrun := advancer_run lc ident w).
  rewrite Hi, Ht, Hd, Hs in Hrun. cbv zeta in Hrun.
  destruct (includes _ _) eqn:E in Hrun; rewrite Hrun; cbn [fst snd].
  - split; [done|]. eexists _, draft. cbn [issues set_issues].
    rewrite Hid, lookup_alter_eq, Hi. simpl. done.
  - split; [done|]. exists issue, st. rewrite issues_record_calls.
    split_and!; [done|done|exact Hs|]. intros Hin. apply includes_spec in Hin.
    congruence.
Qed.

(** After a successful run of the setter on a name that is not empty, the
    issue has, in the tracker, an assignee that resolves; its state is as it
    was. *)
Lemma setter_post lc issue name w recorded :
  issues w !! issue_id issue = Some recorded →
  issue_assignee recorded = issue_assignee issue →
  let r := maybeSetIssueAssignee lc issue name w in
  is_Some (match r.1 with Ok i => Some i | Throw _ => None end) →
  ∃ recorded',
    issues r.2 !! issue_id issue = Some recorded' ∧
    issue_state recorded' = issue_state recorded ∧
    (truthy name = true → is_Some (assignee_of w recorded')).
Proof.
  intros Hi Ha r. subst r. rewrite setter_run.
  destruct (truthy name) eqn:Hname; cbn [negb].
  2:{ intros _. exists recorded. by split_and!. }
  assert (assignee_of w recorded = assignee_of w issue) as Hsame
    by (unfold assignee_of; by rewrite Ha).
  destruct (assignee_of w issue) as [u|] eqn:Hu; cbn [fst snd].
  { intros _. exists recorded. rewrite issues_record_calls, Hsame. by split_and!. }
  set (named := users_named w (default "" name)).
  assert (∀ u, u ∈ named → u ∈ users w) as Hnamed.
  { intros u' Hin. unfold named, users_named in Hin.
    by apply list_elem_of_filter in Hin as [_ ?]. }
  destruct named as [|u [|u' us]]; cbn [fst snd]; [by intros []| |by intros []].
  intros _. eexists. cbn [issues set_issues].
  rewrite lookup_alter_eq, Hi. simpl. split_and!; [done|done|].
  intros _. unfold assignee_of. simpl.
  apply head_filter_user_id, Hnamed, list_elem_of_here.
Qed.

(** X14.  Running the orchestrator a second time on the same branch changes
    nothing.  Provided the issue is filed under its own id, the draft state
    under its own, and the draft state is itself past unstarted, a run that
    succeeded is followed by a run that succeeds with no update and no user
    lookup, leaving the tracker's issues as the first run left them. *)
Theorem onCreateBranch_idempotent {U : UpperCase} lc branch w org spec issue st team draft :
  organization w = Some org →
  collectAssigneeIssueIdentifierFromBranchName org branch = Ok spec →
  issues w !! issueIdentifier spec = Some issue →
  issue_id issue = issueIdentifier spec →
  state_of w issue = Some st →
  team_of w issue = Some team →
  draft_state_of w team = Some draft →
  workflowStates w !! ws_id draft = Some draft →
  ws_type draft ∉ ["triage"; "backlog"; "unstarted"] →
  let run := onCreateBranch lc branch in
  (run w).1 = Ok issue →
  let after := (run w).2 in
  (∃ issue', (run after).1 = Ok issue') ∧
  updates_of (calls_during run after) = [] ∧
  lookups_of (calls_during run after) = [] ∧
  issues (run after).2 = issues after.
Proof.
  intros Horg Hp Hi Hid Hs Ht Hd Hdraft Hout run Hfirst after.
  subst run after.
  pose proof (onCreateBranch_structure lc branch w) as Hkeep.
  assert (Hrun := onCreateBranch_run lc branch w). cbv zeta in Hrun.
  rewrite Horg, Hp in Hrun.
  set (w1 := record_calls [OrganizationQuery] w) in *.
  assert (issues w1 !! issueIdentifier spec = Some issue) as Hi1
    by (unfold w1; by rewrite issues_record_calls).
  assert (state_of w1 issue = Some st) as Hs1
    by (unfold w1; by rewrite state_of_record_calls).
  assert (team_of w1 issue = Some team) as Ht1
    by (unfold w1; by rewrite team_of_record_calls).
  assert (draft_state_of w1 team = Some draft) as Hd1
    by (unfold w1; by rewrite draft_state_of_record_calls).
  destruct (advancer_post lc (issueIdentifier spec) w1 issue st team draft
              Hi1 Hid Hs1 Ht1 Hd1 Hdraft Hout)
    as (Hadv & recorded & st' & Hrec & Hassignee & Hst' & Htype).
  pose proof (advancer_structure lc (issueIdentifier spec) w1) as Hkeep1.
  destruct (maybeUpdateIssueToTeamDraftState lc (issueIdentifier spec) w1)
    as [r w2]. cbn [fst snd] in *. subst r.
  rewrite <- Hid in Hrec.
  destruct (setter_post lc issue (assignee spec) w2 recorded Hrec Hassignee)
    as (recorded' & Hrec' & Hstate & Hassigned).
  { rewrite <- Hrun, Hfirst. by eexists. }
  rewrite <- Hrun in Hrec'. rewrite Hid in Hrec'.
  pose proof (setter_structure lc issue (assignee spec) w2) as Hkeep2.
  rewrite <- Hrun in Hkeep2.
  set (after := (onCreateBranch lc branch w).2) in *.
  destruct Hkeep as (_ & Horg' & _ & Hteams & Hstates & Husers & Hissues).
  destruct Hkeep1 as (_ & _ & _ & _ & Hstates1 & Husers1 & _).
  destruct Hkeep2 as (_ & _ & _ & _ & _ & Husers2 & _).
  destruct (Hissues (issueIdentifier spec)) as [_ Hteam'].
  rewrite Hrec', Hi in Hteam'. injection Hteam' as Hteam'.
  change (workflowStates w1) with (workflowStates w) in *.
  change (users w1) with (users w) in *.
  assert (state_of after recorded' = Some st') as Hs'.
  { unfold state_of. by rewrite Hstate, Hstates. }
  assert (team_of after recorded' = Some team) as Ht'.
  { unfold team_of in *. by rewrite Hteam', Hteams. }
  assert (draft_state_of after team = Some draft) as Hd'.
  { unfold draft_state_of in *. by rewrite Hstates. }
  assert (truthy (assignee spec) = false ∨ is_Some (assignee_of after recorded'))
    as Hv.
  { destruct (truthy (assignee spec)) eqn:Hname; [right|by left].
    specialize (Hassigned eq_refl). unfold assignee_of in *.
    by rewrite Husers, <- Husers1. }
  destruct (run_on_settled_issue lc branch after org spec recorded' st' team draft
              (eq_trans Horg' Horg) Hp Hrec' Hs' Ht' Hd' Htype Hv)
    as (H1 & H2 & H3 & H4).
  eauto.
Qed.

Lemma onCreateBranch_idempotent_witness :
  let run := onCreateBranch Sample.lc "bob/eng-42-refactor-login" in
  let after := (run Sample.world).2 in
  (∃ issue', (run after).1 = Ok issue') ∧
  updates_of (calls_during run after) = [] ∧
  lookups_of (calls_during run after) = [] ∧
  issues (run after).2 = issues after.
Proof.
  apply (onCreateBranch_idempotent Sample.lc "bob/eng-42-refactor-login" Sample.world
           Sample.org {| assignee := Some "bob"; issueIdentifier := "ENG-42" |}
           Sample.eng42 Sample.triage Sample.eng Sample.ready);
    try reflexivity.
  vm_compute. intros H. repeat (apply elem_of_cons in H as [H|H]; [discriminate H|]).
  by apply elem_of_nil in H.
Defined.

(** ** Failures half-way *)

(** X10.  When the tracker files no issue under the identifier parsed from
    the branch, the orchestrator ends on the tracker's error right after the
    issue query: no update, no user lookup, the tracker's issues untouched;
    and [main], once it has a client (the API key is set), ends on that
    error as an unhandled rejection. *)
Theorem missing_issue_aborts {U : UpperCase} lc branch w org spec :
  organization w = Some org →
  collectAssigneeIssueIdentifierFromBranchName org branch = Ok spec →
  issues w !! issueIdentifier spec = None →
  let run := onCreateBranch lc branch in
  let args := {| positional := ["on-create-branch"]; branchName := Some branch |} in
  (run w).1 = Throw (ApiError "Entity not found") ∧
  calls_during run w = [OrganizationQuery; IssueQuery (issueIdentifier spec)] ∧
  issues (run w).2 = issues w ∧
  (truthy (env_LINEAR_API_KEY w) = true →
   (main args w).1 = UnhandledRejection (ApiError "Entity not found") ∧
   issues (main args w).2 = issues w).
Proof.
  intros Horg Hp Hi run args. subst run args.
  assert (∀ lc' w', organization w' = Some org →
                    issues w' !! issueIdentifier spec = None →
                    onCreateBranch lc' branch w' =
                    (Throw (ApiError "Entity not found"),
                     record_calls
                       [OrganizationQuery; IssueQuery (issueIdentifier spec)] w'))
    as Hrun.
  { intros lc' w' Horg' Hi'. rewrite onCreateBranch_run, Horg', Hp. cbv zeta.
    by rewrite advancer_run, issues_record_calls, Hi'. }
  rewrite (Hrun lc w Horg Hi). cbn [fst snd].
  split_and!; [done| |apply issues_record_calls|].
  { apply calls_during_record. by rewrite (Hrun lc w Horg Hi). }
  intros Hkey.
  set (w1 := record_calls [ClientConstructed (clientOf w); OrganizationQuery] w).
  assert (organization w1 = Some org) as Horg1 by done.
  assert (issues w1 !! issueIdentifier spec = None) as Hi1 by done.
  assert (Hmain := main_run branch w Hkey). cbv zeta in Hmain.
  rewrite Horg in Hmain. fold w1 in Hmain. rewrite (Hrun _ w1 Horg1 Hi1) in Hmain.
  rewrite Hmain. cbn [fst snd]. split; [done|].
  unfold w1. by rewrite !issues_record_calls.
Qed.

Lemma missing_issue_aborts_witness :
  (onCreateBranch Sample.lc "bob/eng-404-nothing" Sample.world).1
  = Throw (ApiError "Entity not found") ∧
  (main {| positional := ["on-create-branch"];
           branchName := Some "bob/eng-404-nothing" |} Sample.world).1
  = UnhandledRejection (ApiError "Entity not found").
Proof.
  pose proof (missing_issue_aborts Sample.lc "bob/eng-404-nothing" Sample.world
                Sample.org {| assignee := Some "bob"; issueIdentifier := "ENG-404" |}
                eq_refl eq_refl eq_refl) as (Hrun & _ & _ & Hmain).
  exact (conj Hrun (proj1 (Hmain eq_refl))).
Defined.

(** X11.  The state transition is not undone when the assignment fails.  If
    the issue, filed under its own id, is in triage, backlog or unstarted
    and unassigned, and the user named in the branch is unknown or
    ambiguous, the orchestrator ends on AssigneeResolutionFailed having
    issued the state update and no other: the tracker's record of the issue
    is in the draft state, its assignee, team and id as before. *)
Theorem failed_assignment_keeps_transition {U : UpperCase} lc branch w org spec user issue st team draft :
  organization w = Some org →
  collectAssigneeIssueIdentifierFromBranchName org branch = Ok spec →
  assignee spec = Some user →
  user ≠ "" →
  issues w !! issueIdentifier spec = Some issue →
  issue_id issue = issueIdentifier spec →
  state_of w issue = Some st →
  team_of w issue = Some team →
  draft_state_of w team = Some draft →
  ws_type st ∈ ["triage"; "backlog"; "unstarted"] →
  assignee_of w issue = None →
  List.length (users_named w user) ≠ 1 →
  let run := onCreateBranch lc branch in
  let input := {| stateId := Some (ws_id draft); assigneeId := None |} in
  (run w).1 = Throw AssigneeResolutionFailed ∧
  updates_of (calls_during run w) = [(issue_id issue, input)] ∧
  issues (run w).2 !! issueIdentifier spec =
    Some {| issue_id := issue_id issue;
            issue_state := Some (ws_id draft);
            issue_team := issue_team issue;
            issue_assignee := issue_assignee issue |}.
Proof.
  intros Horg Hp Hname Hne Hi Hid Hs Ht Hd Hin%includes_spec Hu Hlen run input.
  subst run.
  assert (Hrun := onCreateBranch_run lc branch w). cbv zeta in Hrun.
  rewrite Horg, Hp in Hrun.
  set (w1 := record_calls [OrganizationQuery] w) in *.
  assert (Hadv := advancer_run lc (issueIdentifier spec) w1).
  unfold w1 in Hadv at 2 3 4 5 6.
  rewrite issues_record_calls, Hi in Hadv. cbv zeta in Hadv.
  rewrite team_of_record_calls, Ht, draft_state_of_record_calls, Hd,
    state_of_record_calls, Hs, Hin in Hadv.
  fold input in Hadv. rewrite Hadv in Hrun.
  match type of Hrun with
  | _ = maybeSetIssueAssignee _ _ _ ?w => set (w2 := w) in *
  end.
  assert (Hset := setter_run lc issue (assignee spec) w2).
  rewrite Hname in Hset. destruct user as [|c user]; [done|].
  cbn [truthy negb default from_option id] in Hset.
  assert (assignee_of w2 issue = None) as Hu2 by exact Hu.
  assert (users_named w2 (String c user) = users_named w (String c user)) as Hn2
    by done.
  rewrite Hu2, Hn2 in Hset. cbv zeta in Hset.
  assert (maybeSetIssueAssignee lc issue (Some (String c user)) w2 =
          (Throw AssigneeResolutionFailed,
           record_calls [IssueAssigneeQuery (issue_id issue);
                         UsersQuery (String c user)] w2)) as Hset'.
  { rewrite Hset. destruct (users_named w (String c user)) as [|u [|u' us]];
      [done|by simpl in Hlen|done]. }
  rewrite Hname, Hset' in Hrun.
  assert (trace (onCreateBranch lc branch w).2 =
          trace w ++
            [OrganizationQuery; IssueQuery (issueIdentifier spec);
             IssueStateQuery (issue_id issue); IssueTeamQuery (issue_id issue);
             TeamDraftStateQuery (team_id team); IssueUpdate (issue_id issue) input;
             IssueAssigneeQuery (issue_id issue); UsersQuery (String c user)])
    as Htrace.
  { rewrite Hrun. cbn [snd]. rewrite trace_record_calls. unfold w2.
    cbn [trace set_issues]. unfold w1. rewrite !trace_record_calls.
    by rewrite <- !app_assoc. }
  rewrite (calls_during_app _ _ _ Htrace), Hrun. cbn [fst snd updates_of].
  split_and!; [done|done|].
  rewrite issues_record_calls. unfold w2. cbn [issues set_issues].
  rewrite Hid, lookup_alter_eq, Hi. simpl. unfold apply_update. simpl.
  by rewrite ?Hid.
Qed.

Lemma failed_assignment_keeps_transition_witness :
  let run := onCreateBranch Sample.lc "carol/eng-42-refactor-login" in
  let input := {| stateId := Some "st-ready"; assigneeId := None |} in
  (run Sample.world).1 = Throw AssigneeResolutionFailed ∧
  updates_of (calls_during run Sample.world) = [("ENG-42", input)] ∧
  issues (run Sample.world).2 !! "ENG-42" =
    Some {| issue_id := "ENG-42"; issue_state := Some "st-ready";
            issue_team := Some "team-eng"; issue_assignee := None |}.
Proof.
  apply (failed_assignment_keeps_transition Sample.lc "carol/eng-42-refactor-login"
           Sample.world Sample.org
           {| assignee := Some "carol"; issueIdentifier := "ENG-42" |} "carol"
           Sample.eng42 Sample.triage Sample.eng Sample.ready);
    try reflexivity; try discriminate.
  apply list_elem_of_here.
Defined.

(** ** The calls of the process *)

Lemma onCreateBranch_calls {U : UpperCase} lc branch w :
  ∃ t, trace (onCreateBranch lc branch w).2 = trace w ++ OrganizationQuery :: t ∧
       Forall (λ c, 3 ≤ stage_of c) t ∧
       (organization w = None → t = []).
Proof.
  rewrite onCreateBranch_run. cbv zeta.
  set (w1 := record_calls [OrganizationQuery] w).
  assert (trace w1 = trace w ++ [OrganizationQuery]) as Hw1
    by apply trace_record_calls.
  destruct (organization w) as [org|]; [|by exists []].
  destruct (collectAssigneeIssueIdentifierFromBranchName org branch) as [spec|e];
    [|by exists []].
  destruct (advancer_calls lc (issueIdentifier spec) w1) as (t3 & Ht3 & Hs3).
  assert (Forall (λ c, 3 ≤ stage_of c) t3) as Hs3'
    by (eapply Forall_impl; [exact Hs3|]; intros c ->; lia).
  destruct (maybeUpdateIssueToTeamDraftState lc (issueIdentifier spec) w1)
    as [[issue|e] w2]; cbn [snd] in *.
  2:{ exists t3. by rewrite Ht3, Hw1, <- app_assoc. }
  destruct (setter_calls lc issue (assignee spec) w2) as (t4 & Ht4 & Hs4).
  exists (t3 ++ t4). rewrite Ht4, Ht3, Hw1, <- !app_assoc.
  split_and!; [done| |done]. apply Forall_app. split; [done|].
  eapply Forall_impl; [exact Hs4|]. intros c ->. lia.
Qed.



(** X16.  Whatever the arguments, a process builds at most one client and
    never asks for the viewer.  When the argument list does not hold exactly
    one command, or the API key is missing, nothing is called at all;
    otherwise the calls begin with the construction of the client, keyed
    from the environment, and a fetch of the organization, and every later
    call is a request to the tracker about the organization, an issue, a
    team or users. *)
Theorem one_client_no_viewer {U : UpperCase} args w :
  let calls := calls_during (main args) w in
  if decide (List.length (positional args) = 1) then
    if truthy (env_LINEAR_API_KEY w) then
      ∃ t, calls = ClientConstructed (clientOf w) :: OrganizationQuery :: t ∧
           Forall (λ c, 1 ≤ stage_of c) t
    else calls = []
  else calls = [].
Proof.
  intros calls. subst calls. destruct args as [pos given].
  cbn [positional].
  case_decide as Hlen.
  2:{ apply calls_during_none. unfold main. cbn [positional].
      by rewrite decide_True. }
  destruct pos as [|command [|second rest]]; [done| |done]. clear Hlen.
  assert (Hmain := main_run_any command given w).
  destruct (truthy (env_LINEAR_API_KEY w)).
  2:{ apply calls_during_none. by rewrite Hmain. }
  cbv zeta in Hmain.
  set (w1 := record_calls [ClientConstructed (clientOf w); OrganizationQuery] w) in *.
  assert (trace w1 = trace w ++ [ClientConstructed (clientOf w); OrganizationQuery])
    as Hw1 by apply trace_record_calls.
  destruct (organization w) as [org|] eqn:Horg.
  2:{ exists []. split; [|constructor]. apply calls_during_app. by rewrite Hmain. }
  case_decide as Hc.
  2:{ exists []. split; [|constructor]. apply calls_during_app. by rewrite Hmain. }
  destruct given as [branch|].
  - destruct (onCreateBranch_calls (clientOf w) branch w1) as (t & Ht & Hs & _).
    exists (OrganizationQuery :: t). split.
    + apply calls_during_app. rewrite Hmain.
      destruct (onCreateBranch _ _ _) as [[] w2]; cbn [snd] in *;
        by rewrite Ht, Hw1, <- app_assoc.
    + constructor; [simpl; lia|].
      eapply Forall_impl; [exact Hs|]. intros c Hle. simpl in Hle. lia.
  - exists [OrganizationQuery]. split; [|repeat constructor].
    apply calls_during_app. rewrite Hmain. cbn [snd].
    by rewrite trace_record_calls, Hw1, <- app_assoc.
Qed.

Lemma one_client_no_viewer_witness :
  ∃ t, calls_during (main Sample.args) Sample.world =
         ClientConstructed (clientOf Sample.world) :: OrganizationQuery :: t ∧
       Forall (λ c, 1 ≤ stage_of c) t.
Proof. exact (one_client_no_viewer Sample.args Sample.world). Defined.

(** X17.  On the command on-create-branch, with a client at hand (the API
    key is set) and the organization served, the organization is fetched
    exactly twice, once by [main] and once by the orchestrator, before
    anything is asked about an issue. *)
Theorem organization_fetched_twice {U : UpperCase} given w org :
  truthy (env_LINEAR_API_KEY w) = true →
  organization w = Some org →
  let args := {| positional := ["on-create-branch"]; branchName := given |} in
  ∃ t, calls_during (main args) w =
         [ClientConstructed (clientOf w); OrganizationQuery; OrganizationQuery] ++ t ∧
       Forall (λ c, 3 ≤ stage_of c) t.
Proof.
  intros Hkey Horg args. subst args.
  set (w1 := record_calls [ClientConstructed (clientOf w); OrganizationQuery] w).
  assert (trace w1 = trace w ++ [ClientConstructed (clientOf w); OrganizationQuery])
    as Hw1 by apply trace_record_calls.
  destruct given as [branch|].
  - assert (Hmain := main_run branch w Hkey). cbv zeta in Hmain.
    rewrite Horg in Hmain. fold w1 in Hmain.
    destruct (onCreateBranch_calls (clientOf w) branch w1) as (t & Ht & Hs & _).
    exists t. split; [|done].
    apply calls_during_app. rewrite Hmain.
    destruct (onCreateBranch _ _ _) as [[] w2]; cbn [snd] in *;
      by rewrite Ht, Hw1, <- app_assoc.
  - assert (Hmain := main_run_undefined w Hkey). cbv zeta in Hmain.
    rewrite Horg in Hmain. exists []. split; [|constructor].
    apply calls_during_record. by rewrite Hmain.
Qed.

Lemma organization_fetched_twice_witness :
  ∃ t, calls_during (main Sample.args) Sample.world =
         [ClientConstructed (clientOf Sample.world);
          OrganizationQuery; OrganizationQuery] ++ t ∧
       Forall (λ c, 3 ≤ stage_of c) t.
Proof.
  exact (organization_fetched_twice (Some "bob/eng-42-refactor-login")
           Sample.world Sample.org eq_refl eq_refl).
Defined.

(** ** Splitting and joining *)

Lemma split_app_sep sep s t :
  count_char sep s = 0 → split sep (s +:+ String sep t) = s :: split sep t.
Proof.
  intros Hs. rewrite split_unfold, before_first_app, after_first_app by done.
  rewrite decide_False; [done|]. rewrite count_app. simpl.
  rewrite decide_True by done. lia.
Qed.

(** X18.  [split] loses nothing and cuts at every separator: joining the
    pieces with the separator gives the string back, there is one piece more
    than there are separators, and no piece holds a separator.  Conversely a
    non-empty list of separator-free pieces is what its joining splits into. *)
Theorem split_join_round_trip sep :
  (∀ s, join sep (split sep s) = s ∧
        List.length (split sep s) = S (count_char sep s) ∧
        Forall (λ piece, count_char sep piece = 0) (split sep s)) ∧
  (∀ pieces, pieces ≠ [] →
             Forall (λ piece, count_char sep piece = 0) pieces →
             split sep (join sep pieces) = pieces).
Proof.
  split.
  - intros s. split_and!; [| apply split_length |].
    + induction s as [|c s IH]; simpl; [done|].
      pose proof (split_length sep s) as Hlen.
      destruct (split sep s) as [|p ps]; [done|].
      case_decide; [subst c; by rewrite <- IH|].
      rewrite <- IH. by destruct ps.
    + induction s as [|c s IH]; simpl; [by repeat constructor|].
      case_decide; [by constructor|].
      destruct IH as [|p ps Hp Hps]; constructor; simpl; try done;
        rewrite decide_False by done; simpl; done.
  - intros pieces Hne Hall. induction Hall as [|p ps Hp Hps IH]; [done|].
    destruct ps as [|q ps]; [by apply split_absent|].
    change (join sep (p :: q :: ps)) with (p +:+ String sep (join sep (q :: ps))).
    rewrite split_app_sep by done. by rewrite IH.
Qed.

Lemma split_join_round_trip_witness :
  split "-" (join "-" ["eng"; "42"; "refactor"; "login"])
  = ["eng"; "42"; "refactor"; "login"].
Proof.
  apply (proj2 (split_join_round_trip "-")); [discriminate|].
  repeat constructor.
Defined.

(** ** The whole run *)

(** X19.  The two stages compose.  For an issue filed under its own id, in
    triage, backlog or unstarted, unassigned, with its team's draft state
    resolved, and a branch naming a user that exactly one user's display
    name matches, the orchestrator succeeds with exactly two updates, the
    state then the assignee; afterwards the tracker's record of the issue
    has the draft state and that user, and its id and team as before. *)
Theorem advance_and_assign {U : UpperCase} lc branch w org spec name issue st team draft user :
  organization w = Some org →
  collectAssigneeIssueIdentifierFromBranchName org branch = Ok spec →
  assignee spec = Some name →
  name ≠ "" →
  issues w !! issueIdentifier spec = Some issue →
  issue_id issue = issueIdentifier spec →
  state_of w issue = Some st →
  team_of w issue = Some team →
  draft_state_of w team = Some draft →
  ws_type st ∈ ["triage"; "backlog"; "unstarted"] →
  assignee_of w issue = None →
  users_named w name = [user] →
  let run := onCreateBranch lc branch in
  (run w).1 = Ok issue ∧
  updates_of (calls_during run w) =
    [(issue_id issue, {| stateId := Some (ws_id draft); assigneeId := None |});
     (issue_id issue, {| stateId := None; assigneeId := Some (user_id user) |})] ∧
  issues (run w).2 !! issueIdentifier spec =
    Some {| issue_id := issue_id issue;
            issue_state := Some (ws_id draft);
            issue_team := issue_team issue;
            issue_assignee := Some (user_id user) |}.
Proof.
  intros Horg Hp Hname Hne Hi Hid Hs Ht Hd Hin%includes_spec Hu Huser run.
  subst run.
  assert (Hrun := onCreateBranch_run lc branch w). cbv zeta in Hrun.
  rewrite Horg, Hp in Hrun.
  set (w1 := record_calls [OrganizationQuery] w) in *.
  assert (Hadv := advancer_run lc (issueIdentifier spec) w1).
  unfold w1 in Hadv at 2 3 4 5 6.
  rewrite issues_record_calls, Hi in Hadv. cbv zeta in Hadv.
  rewrite team_of_record_calls, Ht, draft_state_of_record_calls, Hd,
    state_of_record_calls, Hs, Hin in Hadv.
  set (sIn := {| stateId := Some (ws_id draft); assigneeId := None |}) in *.
  rewrite Hadv in Hrun.
  match type of Hrun with
  | _ = maybeSetIssueAssignee _ _ _ ?w => set (w2 := w) in *
  end.
  assert (Hset := setter_run lc issue (assignee spec) w2).
  rewrite Hname in Hset. destruct name as [|c name]; [done|].
  cbn [truthy negb default from_option id] in Hset.
  assert (assignee_of w2 issue = None) as Hu2 by exact Hu.
  assert (users_named w2 (String c name) = [user]) as Hn2 by exact Huser.
  rewrite Hu2, Hn2 in Hset. cbv zeta in Hset.
  set (aIn := {| stateId := None; assigneeId := Some (user_id user) |}) in *.
  rewrite Hname, Hset in Hrun.
  assert (trace (onCreateBranch lc branch w).2 =
          trace w ++
            [OrganizationQuery; IssueQuery (issueIdentifier spec);
             IssueStateQuery (issue_id issue); IssueTeamQuery (issue_id issue);
             TeamDraftStateQuery (team_id team); IssueUpdate (issue_id issue) sIn;
             IssueAssigneeQuery (issue_id issue); UsersQuery (String c name);
             IssueUpdate (issue_id issue) aIn])
    as Htrace.
  { rewrite Hrun. cbn [snd trace set_issues]. rewrite trace_record_calls.
    unfold w2. cbn [trace set_issues]. unfold w1. rewrite !trace_record_calls.
    by rewrite <- !app_assoc. }
  rewrite (calls_during_app _ _ _ Htrace), Hrun. cbn [fst snd updates_of].
  split_and!; [done|done|].
  cbn [issues set_issues]. unfold w2. cbn [issues set_issues].
  rewrite Hid, !lookup_alter_eq, Hi. simpl.
  unfold apply_update. simpl. by rewrite Hid.
Qed.

Lemma advance_and_assign_witness :
  let run := onCreateBranch Sample.lc "bob/eng-42-refactor-login" in
  (run Sample.world).1 = Ok Sample.eng42 ∧
  updates_of (calls_during run Sample.world) =
    [("ENG-42", {| stateId := Some "st-ready"; assigneeId := None |});
     ("ENG-42", {| stateId := None; assigneeId := Some "u-bob" |})] ∧
  issues (run Sample.world).2 !! "ENG-42" =
    Some {| issue_id := "ENG-42"; issue_state := Some "st-ready";
            issue_team := Some "team-eng"; issue_assignee := Some "u-bob" |}.
Proof.
  apply (advance_and_assign Sample.lc "bob/eng-42-refactor-login" Sample.world
           Sample.org {| assignee := Some "bob"; issueIdentifier := "ENG-42" |} "bob"
           Sample.eng42 Sample.triage Sample.eng Sample.ready Sample.bob);
    try reflexivity; try discriminate.
  apply list_elem_of_here.
Defined.
